(** * A proof-carrying DPLL solver (src/dpll.py), embedded in Rocq

    The development follows the source function by function: [resolve],
    [unit_propagate_literal], [get_unit_clauses], [unit_propagate],
    [remove_assumption], [select_variable], [dpll_internal] and [dpll].

    The module [defns] that the source imports (literals, the clause
    classes, [first], the two result classes) is not part of the sources;
    it is modelled from the specification's data model (section 3).

    Sets of literals are [gset]s, the assignments dictionary is a [gmap],
    and a formula (a Python set of clauses) is the list of its elements.
    The order in which Python visits a set is a parameter of the solver:
    what is proved of it holds for every order, and the examples run it at
    one. The two recursions of the source that are not structural (the
    [while] loop and the search) are bounded by a fuel; [unit_propagate]
    is given enough of it to be total, and [dpll_terminates] gives the
    fuel that the search needs. *)

From stdpp Require Import gmap list strings.

#[local] Set Warnings "-level-tolerance,-clear-no-such-hyp".

Local Open Scope Z_scope.

(* ===================================================================== *)
(** ** Data model *)
(* ===================================================================== *)

(** Modelled from the spec: the class [Literal] of the missing module
    [defns]. A literal is a pair [(variable, sign)], [sign = true] for a
    positive occurrence; two literals are equal iff they have the same
    variable and the same sign. *)
Record Literal : Type := mkLiteral { variable : Z; sign : bool }.

Global Instance Literal_eq_dec : EqDecision Literal.
Proof. solve_decision. Defined.

Global Instance Literal_countable : Countable Literal.
Proof.
  refine (inj_countable' (λ l, (variable l, sign l))
                         (λ p, mkLiteral p.1 p.2) _).
  by intros [].
Defined.

(** Modelled from the spec: [-l], negation flips the sign and keeps the
    variable. *)
Definition neg (l : Literal) : Literal :=
  mkLiteral (variable l) (negb (sign l)).

(** Modelled from the spec: the clause hierarchy of the missing module
    [defns]: a tagged union of three variants. The first variant is the
    class the source calls Axiom (a reserved word here, hence the longer
    name). A resolved clause stores its literal set and its two parents. *)
Inductive Clause : Type :=
  | AxiomClause (lits : gset Literal)
  | Assumption (literal : Literal)
  | ResolvedClause (lits : gset Literal) (clause1 clause2 : Clause).

(** Modelled from the spec: every variant exposes its set of literals; an
    assumption is a single-literal clause. *)
Definition literals (c : Clause) : gset Literal :=
  match c with
  | AxiomClause s => s
  | Assumption l => {[ l ]}
  | ResolvedClause s _ _ => s
  end.

(** Modelled from the spec: [len(clause)], the number of literals. *)
Definition len (c : Clause) : nat := size (literals c).

(** Modelled from the spec: [c1 == c2] on clauses. Identity is structural:
    two clauses are equal iff their literal sets are, whatever their
    variants and parents. *)
Definition clause_eqb (c1 c2 : Clause) : bool :=
  bool_decide (literals c1 = literals c2).

Definition is_ResolvedClause (c : Clause) : bool :=
  match c with ResolvedClause _ _ _ => true | _ => false end.

(** A formula is a Python [set] of clauses. It is kept as the list of its
    elements, no two of them equal under [clause_eqb]. *)
Abbreviation Formula := (list Clause).

(** [s.add(c)]: nothing happens when an equal clause is already there. *)
Definition add (s : Formula) (c : Clause) : Formula :=
  if bool_decide (literals c ∈ (literals <$> s)) then s else s ++ [c].

(** [s | t]: a copy of [s] to which the elements of [t] are added. *)
Definition union_set (s t : Formula) : Formula := foldl add s t.

(** The assignments dictionary [Dict[int, bool]]. *)
Abbreviation Assignments := (gmap Z bool).

(** [assignments[literal.variable] = literal.sign] *)
Definition record (a : Assignments) (l : Literal) : Assignments :=
  <[variable l := sign l]> a.

(** Modelled from the spec: the two result classes of the missing module
    [defns], with their method [sat()]. *)
Inductive Result : Type :=
  | SATResult (assignments : Assignments)
  | UNSATResult (clause : Clause).

Definition sat (r : Result) : bool :=
  match r with SATResult _ => true | UNSATResult _ => false end.

(** Outcome of running a Python call: it returns a value, raises, or (for
    the model only) exhausts the fuel that bounds its recursion. *)
Inductive exec (A : Type) : Type :=
  | Done (a : A)
  | Fault (msg : string)
  | OutOfFuel.
Arguments Done {A} a.
Arguments Fault {A} msg.
Arguments OutOfFuel {A}.

Global Instance exec_ret : MRet exec := λ A a, Done a.
Global Instance exec_bind : MBind exec := λ A B f m,
  match m with
  | Done a => f a
  | Fault msg => Fault msg
  | OutOfFuel => OutOfFuel
  end.

Global Instance exec_fmap : FMap exec := λ A B f m,
  match m with
  | Done a => Done (f a)
  | Fault msg => Fault msg
  | OutOfFuel => OutOfFuel
  end.

(* ===================================================================== *)
(** ** resolve (src/dpll.py, lines 25-33) *)
(* ===================================================================== *)

(** [res_var = {l.variable for l in c1 if -l in c2}] *)
Definition res_var (c1 c2 : Clause) : gset Z :=
  set_map variable (filter (λ l, neg l ∈ literals c2) (literals c1)).

Definition resolve (c1 c2 : Clause) : Clause :=
  ResolvedClause
    (filter (λ l, variable l ∉ res_var c1 c2) (literals c1 ∪ literals c2))
    c1 c2.

(** The call [resolve(c1, c2)] as a computation: the body has no [raise]
    and no guard, so the call always returns. *)
Definition run_resolve (c1 c2 : Clause) : exec Clause := Done (resolve c1 c2).

(* ===================================================================== *)
(** ** remove_assumption (src/dpll.py, lines 102-120) *)
(* ===================================================================== *)

(** The third test of the source inspects [assumption], not [clause]. *)
Fixpoint remove_assumption (assumption clause : Clause) : Clause :=
  match clause with
  | Assumption _ => clause
  | AxiomClause _ => clause
  | ResolvedClause _ clause1 clause2 =>
      if is_ResolvedClause assumption then
        if clause_eqb clause1 assumption then
          remove_assumption assumption clause2
        else if clause_eqb clause2 assumption then
          remove_assumption assumption clause1
        else
          resolve (remove_assumption assumption clause1)
                  (remove_assumption assumption clause2)
      else clause
  end.

(* ===================================================================== *)
(** ** Unit propagation and the search driver *)
(* ===================================================================== *)

Section Solver.

(** Python iterates a set in an order fixed by the hashes of its
    elements, which the source does not control. [set_iter] is the order
    in which the clauses of a formula are visited, [clause_iter] the order
    in which the literals of a clause are. *)
Variable set_iter : Formula → Formula.
Variable clause_iter : gset Literal → list Literal.

(** Modelled from the spec: the helper [first] of the missing module
    [defns], the first element an iteration yields. *)
Definition first (c : Clause) : option Literal :=
  head (clause_iter (literals c)).

(** src/dpll.py, lines 51-62: one turn of the loop [for clause in formula]
    of [unit_propagate_literal]; [new_formula] is the set being built. *)
Definition propagate_clause (literal : Literal) (unit : Clause)
    (new_formula : Formula) (clause : Clause) : Formula :=
  if bool_decide (literal ∈ literals clause) then
    new_formula
  else if bool_decide (neg literal ∈ literals clause) then
    add new_formula (resolve clause unit)
  else
    add new_formula clause.

(** src/dpll.py, lines 42-64 *)
Definition unit_propagate_literal (formula : Formula) (unit : Clause)
  : exec Formula :=
  if bool_decide (len unit ≠ 1%nat) then
    Fault "Trying to propagate non-unit clause"
  else
    match first unit with
    | None => Fault "first: nothing to iterate"
    | Some literal =>
        Done (foldl (propagate_clause literal unit) [] (set_iter formula))
    end.

(** src/dpll.py, lines 67-68 *)
Definition get_unit_clauses (formula : Formula) : Formula :=
  foldl (λ s c, if bool_decide (len c = 1%nat) then add s c else s)
        [] (set_iter formula).

(** The [for unit in unit_clauses] loop of [unit_propagate]. The formula
    is rebound and the dictionary updated at every turn. *)
Fixpoint propagate_units (units : list Clause) (formula : Formula)
    (assignments : Assignments) : exec (Formula * Assignments) :=
  match units with
  | [] => Done (formula, assignments)
  | unit :: units' =>
      formula' ← unit_propagate_literal formula unit;
      match first unit with
      | None => Fault "first: nothing to iterate"
      | Some literal =>
          propagate_units units' formula' (record assignments literal)
      end
  end.

(** The [while True] loop of [unit_propagate], bounded by [fuel]. *)
Fixpoint unit_propagate_loop (fuel : nat) (formula : Formula)
    (assignments : Assignments) : exec (Formula * Assignments) :=
  match fuel with
  | O => OutOfFuel
  | S fuel' =>
      let unit_clauses := get_unit_clauses formula in
      match unit_clauses with
      | [] => Done (formula, assignments)
      | _ =>
          '(formula', assignments') ←
            propagate_units (set_iter unit_clauses) formula assignments;
          unit_propagate_loop fuel' formula' assignments'
      end
  end.

(** src/dpll.py, lines 73-85. Every turn of the loop removes a clause,
    so one turn per clause and a last one to leave are enough
    ([unit_propagate_loop_done]). The dictionary is mutated in place:
    the call returns the formula together with the dictionary's new
    contents. *)
Definition unit_propagate (formula : Formula) (assignments : Assignments)
  : exec (Formula * Assignments) :=
  unit_propagate_loop (S (length formula)) formula assignments.

(** src/dpll.py, lines 130-133. Python returns [None] when no clause has
    a literal. *)
Fixpoint select_variable_in (clauses : list Clause) : option Z :=
  match clauses with
  | [] => None
  | clause :: clauses' =>
      match clause_iter (literals clause) with
      | literal :: _ => Some (variable literal)
      | [] => select_variable_in clauses'
      end
  end.

Definition select_variable (formula : Formula) : option Z :=
  select_variable_in (set_iter formula).

(** src/dpll.py, lines 164-194: what [dpll_internal] does once the call
    on the true branch has returned [true_result]. [rec] is the recursive
    call. *)
Definition after_true_branch
    (rec : Formula → Assignments → exec (Result * Assignments))
    (formula : Formula) (true_assumption : Clause)
    (true_result : Result) (assignments : Assignments)
  : exec (Result * Assignments) :=
  match true_result with
  | SATResult _ => Done (true_result, assignments)
  | UNSATResult clause =>
      let without_assumption := remove_assumption true_assumption clause in
      if bool_decide (len without_assumption = 0%nat) then
        Done (UNSATResult without_assumption, assignments)
      else
        rec (union_set formula [without_assumption]) assignments
  end.

(** src/dpll.py, lines 140-194. The recursion is bounded by [fuel]. The
    dictionary is shared by all the calls: each call returns its result
    and the dictionary's contents when it returns; a [SATResult] holds
    that same dictionary. *)
Fixpoint dpll_internal (fuel : nat) (formula : Formula)
    (assignments : Assignments) : exec (Result * Assignments) :=
  match fuel with
  | O => OutOfFuel
  | S fuel' =>
      '(formula, assignments) ← unit_propagate formula assignments;
      match formula with
      | [] => Done (SATResult assignments, assignments)
      | _ =>
          match List.find (λ c, bool_decide (len c = 0%nat))
                          (set_iter formula) with
          | Some clause => Done (UNSATResult clause, assignments)
          | None =>
              match select_variable formula with
              | None => Fault "select_variable: no literal"
              | Some branch_on =>
                  let true_assumption :=
                    Assumption (mkLiteral branch_on true) in
                  '(true_result, assignments) ←
                    dpll_internal fuel'
                      (union_set formula [true_assumption]) assignments;
                  after_true_branch (dpll_internal fuel') formula
                    true_assumption true_result assignments
              end
          end
      end
  end.

(** src/dpll.py, lines 137-138 *)
Definition dpll (fuel : nat) (formula : Formula) : exec Result :=
  fst <$> dpll_internal fuel formula ∅.

End Solver.


(* ===================================================================== *)
(** ** Vocabulary of the properties *)
(* ===================================================================== *)

Global Instance Clause_eq_dec : EqDecision Clause.
Proof. solve_decision. Defined.

(** Two clauses have a complementary pair: some literal of the first has
    its negation in the second. *)
Definition complementary (c1 c2 : Clause) : Prop :=
  ∃ l, l ∈ literals c1 ∧ neg l ∈ literals c2.

(** The node [a] occurs in the proof tree of [c] (as [c] itself or as one
    of its ancestors). *)
Fixpoint dag_contains (a c : Clause) : bool :=
  bool_decide (c = a) ||
  match c with
  | ResolvedClause _ c1 c2 => dag_contains a c1 || dag_contains a c2
  | _ => false
  end.

(** Some leaf of the proof tree of [c] is an assumption. *)
Fixpoint has_assumption (c : Clause) : bool :=
  match c with
  | AxiomClause _ => false
  | Assumption _ => true
  | ResolvedClause _ c1 c2 => has_assumption c1 || has_assumption c2
  end.

(** A proof tree over the formula [F]: its leaves are axioms of [F], and
    resolving the parents of each inner node gives the node's literals. *)
Fixpoint checked_proof (F : Formula) (c : Clause) : bool :=
  match c with
  | AxiomClause _ => bool_decide (c ∈ F)
  | Assumption _ => false
  | ResolvedClause s c1 c2 =>
      bool_decide (literals (resolve c1 c2) = s)
      && checked_proof F c1 && checked_proof F c2
  end.

(** The literal set [s] is the one of some clause of [F]. *)
Definition lit_in (F : Formula) (s : gset Literal) : Prop :=
  ∃ c, c ∈ F ∧ literals c = s.

(** The variable [x] occurs in [F]. *)
Definition var_in (F : Formula) (x : Z) : Prop :=
  ∃ c l, c ∈ F ∧ l ∈ literals c ∧ variable l = x.

(** The set of the variables that occur in [F]. *)
Definition variables_of (F : Formula) : gset Z :=
  ⋃ ((λ c, set_map variable (literals c)) <$> F).

(** [F] holds a clause without literals. *)
Definition has_empty (F : Formula) : Prop :=
  ∃ c, c ∈ F ∧ literals c = ∅.

(** The literal [l] is true under the assignment [A]. *)
Definition holds (A : Assignments) (l : Literal) : Prop :=
  A !! variable l = Some (sign l).

(** The clause [c] has a literal that is true under [A]. *)
Definition satisfied (A : Assignments) (c : Clause) : Prop :=
  ∃ l, l ∈ literals c ∧ holds A l.

(** The clauses of [F] are all satisfied under [A]. *)
Definition satisfies (A : Assignments) (F : Formula) : Prop :=
  ∀ c, c ∈ F → satisfied A c.

(** What a propagation that turns the formula [F] and the dictionary [A]
    into [F'] and [A'] guarantees: no new variable; the dictionary is
    changed on the variables of [F] only; an empty clause stays; and, when
    [F'] has no empty clause, an assignment that agrees with [A'] off the
    variables of [F'] and satisfies [F'] satisfies [F]. *)
Definition simplifies (F : Formula) (A : Assignments)
    (F' : Formula) (A' : Assignments) : Prop :=
  (∀ x, var_in F' x → var_in F x) ∧
  (∀ x, ¬ var_in F x → A' !! x = A !! x) ∧
  (has_empty F → has_empty F') ∧
  (¬ has_empty F' →
   ∀ A0, (∀ x, ¬ var_in F' x → A0 !! x = A' !! x) →
         satisfies A0 F' → satisfies A0 F).

(** The literals of the units still to propagate, in the state [F], [A]:
    each is still a unit clause of [F], or [F] has an empty clause, or its
    variable has left [F] and [A] makes it true. *)
Definition pending (F : Formula) (A : Assignments) (U : list Literal)
  : Prop :=
  ∀ l, l ∈ U →
       lit_in F {[ l ]} ∨ has_empty F ∨
       (¬ var_in F (variable l) ∧ holds A l).

(** The literals of the unit clauses in a list, in order ([first] of
    each). *)
Definition unit_literals (clause_iter : gset Literal → list Literal)
    (units : list Clause) : list Literal :=
  omap (first clause_iter) units.

(** The unit clauses that [unit_propagate_loop] hands to
    [unit_propagate_literal], in the order in which it does. *)
Fixpoint propagated (set_iter : Formula → Formula)
    (clause_iter : gset Literal → list Literal)
    (fuel : nat) (formula : Formula) : list Clause :=
  match fuel with
  | O => []
  | S fuel' =>
      match get_unit_clauses set_iter formula with
      | [] => []
      | unit_clauses =>
          set_iter unit_clauses ++
          match propagate_units set_iter clause_iter
                  (set_iter unit_clauses) formula ∅ with
          | Done (formula', _) =>
              propagated set_iter clause_iter fuel' formula'
          | _ => []
          end
      end
  end.

(** No literal of [c] has its negation in [c]. *)
Definition tautology_free (c : Clause) : Prop :=
  ∀ l, l ∈ literals c → neg l ∉ literals c.

Definition is_AxiomClause (c : Clause) : bool :=
  match c with AxiomClause _ => true | _ => false end.

(** The leaves of the proof tree of [c], from left to right. *)
Fixpoint leaves (c : Clause) : list Clause :=
  match c with
  | ResolvedClause _ c1 c2 => leaves c1 ++ leaves c2
  | _ => [c]
  end.

(** Every inner node of the proof tree of [c] is a step of unit
    resolution: its second parent is a unit clause [{l}], its first parent
    holds [-l] and not [l], and its literals are those that [resolve]
    computes from the two parents. *)
Fixpoint unit_resolution (c : Clause) : Prop :=
  match c with
  | ResolvedClause s c1 c2 =>
      s = literals (resolve c1 c2) ∧
      (∃ l, literals c2 = {[ l ]} ∧ neg l ∈ literals c1 ∧ l ∉ literals c1) ∧
      unit_resolution c1 ∧ unit_resolution c2
  | _ => True
  end.

(** A proof tree by unit resolution whose leaves are clauses of [F] or
    assumptions that a variable is true. *)
Definition derived_from (F : Formula) (c : Clause) : Prop :=
  unit_resolution c ∧
  ∀ leaf, leaf ∈ leaves c →
          leaf ∈ F ∨ ∃ v, leaf = Assumption (mkLiteral v true).

(** The literals of every inner node of the proof tree of [c] are those
    that [resolve] computes from its parents. *)
Fixpoint re_resolves (c : Clause) : Prop :=
  match c with
  | ResolvedClause s c1 c2 =>
      s = literals (resolve c1 c2) ∧ re_resolves c1 ∧ re_resolves c2
  | _ => True
  end.

(** Some node of the proof tree of [c] has a parent equal to [a] (as
    clauses are compared, by their literals). *)
Fixpoint has_parent (a c : Clause) : bool :=
  match c with
  | ResolvedClause _ c1 c2 =>
      clause_eqb c1 a || clause_eqb c2 a || has_parent a c1 || has_parent a c2
  | _ => false
  end.

(** Inputs used in the examples. *)
Definition x1 : Literal := mkLiteral 1 true.
Definition x2 : Literal := mkLiteral 2 true.

(** [{x1, x2}, {x1, -x2}, {-x1, x2}, {-x1, -x2}]: unsatisfiable, and no
    clause is a unit, so the solver has to branch. *)
Definition four_clauses : Formula :=
  [ AxiomClause {[ x1; x2 ]}; AxiomClause {[ x1; neg x2 ]};
    AxiomClause {[ neg x1; x2 ]}; AxiomClause {[ neg x1; neg x2 ]} ].

(** [{-x1, x2}, {x1}]: unit propagation alone satisfies it. *)
Definition implied : Formula :=
  [ AxiomClause {[ neg x1; x2 ]}; AxiomClause {[ x1 ]} ].

(** [{x1, x2}, {-x1}, {-x2}]: unit propagation alone refutes it. *)
Definition refuted : Formula :=
  [ AxiomClause {[ x1; x2 ]}; AxiomClause {[ neg x1 ]};
    AxiomClause {[ neg x2 ]} ].

(** [{x1}, {-x1}, {}] *)
Definition with_empty_axiom : Formula :=
  [ AxiomClause {[ x1 ]}; AxiomClause {[ neg x1 ]}; AxiomClause ∅ ].

(* ===================================================================== *)
(** ** Literals *)
(* ===================================================================== *)

Lemma neg_involutive l : neg (neg l) = l.
Proof. destruct l as [v []]; reflexivity. Qed.

Lemma neg_ne l : neg l ≠ l.
Proof. destruct l as [v []]; discriminate. Qed.

Lemma variable_neg l : variable (neg l) = variable l.
Proof. reflexivity. Qed.

Lemma same_variable l l' :
  variable l' = variable l → l' = l ∨ l' = neg l.
Proof.
  destruct l as [v s], l' as [v' s']; simpl; intros ->.
  destruct s, s'; auto.
Qed.

(* ===================================================================== *)
(** ** resolve *)
(* ===================================================================== *)

Lemma elem_of_res_var c1 c2 x :
  x ∈ res_var c1 c2 ↔
  ∃ l, l ∈ literals c1 ∧ neg l ∈ literals c2 ∧ variable l = x.
Proof.
  unfold res_var. rewrite elem_of_map. split.
  - intros (l & -> & Hl). apply elem_of_filter in Hl as [? ?]. eauto.
  - intros (l & ? & ? & <-). exists l. split; [done|].
    apply elem_of_filter. done.
Qed.

Lemma elem_of_resolve c1 c2 l :
  l ∈ literals (resolve c1 c2) ↔
  (l ∈ literals c1 ∨ l ∈ literals c2) ∧ variable l ∉ res_var c1 c2.
Proof.
  simpl. rewrite elem_of_filter, elem_of_union. tauto.
Qed.

Lemma res_var_empty c1 c2 :
  res_var c1 c2 = ∅ ↔ ¬ complementary c1 c2.
Proof.
  split.
  - intros He (l & H1 & H2).
    assert (variable l ∈ res_var c1 c2) as Hin
      by (apply elem_of_res_var; eauto).
    rewrite He in Hin. set_solver.
  - intros Hn. apply set_eq. intros x. rewrite elem_of_res_var. split.
    + intros (l & ? & ? & _). destruct Hn. exists l. done.
    + set_solver.
Qed.

(** C5: for clauses with a complementary pair, [resolve] returns a resolved
    clause whose parents are the two inputs and whose literals are those of
    either input whose variable is not resolved; every literal of the
    result comes from an input, and no variable that occurs with opposite
    signs in the two inputs is left. *)
Theorem resolve_complementary c1 c2 :
  complementary c1 c2 →
  (∃ s, resolve c1 c2 = ResolvedClause s c1 c2 ∧
        ∀ l, l ∈ s ↔
             (l ∈ literals c1 ∨ l ∈ literals c2) ∧
             ¬ ∃ l0, l0 ∈ literals c1 ∧ neg l0 ∈ literals c2 ∧
                     variable l0 = variable l) ∧
  (∀ l, l ∈ literals (resolve c1 c2) → l ∈ literals c1 ∨ l ∈ literals c2) ∧
  (∀ l0 l, (l0 ∈ literals c1 ∧ neg l0 ∈ literals c2) ∨
           (l0 ∈ literals c2 ∧ neg l0 ∈ literals c1) →
           variable l = variable l0 → l ∉ literals (resolve c1 c2)).
Proof.
  intros _. split; [|split].
  - exists (literals (resolve c1 c2)). split; [reflexivity|]. intros l.
    rewrite elem_of_resolve, elem_of_res_var. tauto.
  - intros l Hl. apply elem_of_resolve in Hl. tauto.
  - intros l0 l Hpair Hv Hl. apply elem_of_resolve in Hl as [_ Hl].
    apply Hl, elem_of_res_var. destruct Hpair as [[? ?]|[? ?]].
    + exists l0. done.
    + exists (neg l0). rewrite neg_involutive, variable_neg. done.
Qed.

Lemma resolve_complementary_witness :
  complementary (AxiomClause {[ x1; x2 ]}) (AxiomClause {[ neg x1 ]}) ∧
  ∀ l, l ∈ literals (resolve (AxiomClause {[ x1; x2 ]})
                             (AxiomClause {[ neg x1 ]})) →
       l ∈ literals (AxiomClause {[ x1; x2 ]}) ∨
       l ∈ literals (AxiomClause {[ neg x1 ]}).
Proof.
  assert (complementary (AxiomClause {[ x1; x2 ]}) (AxiomClause {[ neg x1 ]}))
    as Hc by (exists x1; split; vm_compute; reflexivity).
  split; [exact Hc|].
  apply (resolve_complementary _ _ Hc).
Defined.

Lemma filter_all (P : Literal → Prop) (HP : ∀ x, Decision (P x))
    (s : gset Literal) :
  (∀ x, x ∈ s → P x) → filter P s = s.
Proof.
  intros Hall. apply set_eq. intros x. rewrite elem_of_filter.
  split; [intros [_ ?]; assumption | intros ?; split; auto].
Qed.

(** C6, as the code has it: without a complementary pair [resolve] does
    not abort; it returns the resolved clause whose parents are the two
    inputs and whose literals are all the literals of both. *)
Theorem resolve_without_pair c1 c2 :
  ¬ complementary c1 c2 →
  run_resolve c1 c2 =
  Done (ResolvedClause (literals c1 ∪ literals c2) c1 c2).
Proof.
  intros Hn. apply res_var_empty in Hn.
  unfold run_resolve, resolve. rewrite Hn.
  rewrite filter_all; [reflexivity|]. intros l _. apply not_elem_of_empty.
Qed.

Lemma resolve_without_pair_witness :
  run_resolve (AxiomClause {[ x1 ]}) (AxiomClause {[ x2 ]}) =
  Done (ResolvedClause (literals (AxiomClause {[ x1 ]}) ∪
                        literals (AxiomClause {[ x2 ]}))
          (AxiomClause {[ x1 ]}) (AxiomClause {[ x2 ]})).
Proof.
  apply resolve_without_pair.
  intros (l & Hl & Hn). simpl in Hl, Hn.
  apply elem_of_singleton in Hl. apply elem_of_singleton in Hn.
  subst l. discriminate Hn.
Defined.

(** C6 fails on the code: [{x1}] and [{x2}] have no complementary pair,
    and resolving them raises nothing and returns a clause. *)
Lemma resolve_without_pair_returns :
  res_var (AxiomClause {[ x1 ]}) (AxiomClause {[ x2 ]}) = ∅ ∧
  (¬ ∃ msg, run_resolve (AxiomClause {[ x1 ]}) (AxiomClause {[ x2 ]})
            = Fault msg) ∧
  ∃ c, run_resolve (AxiomClause {[ x1 ]}) (AxiomClause {[ x2 ]}) = Done c ∧
       literals c = {[ x1; x2 ]}.
Proof.
  split; [vm_compute; reflexivity|]. split.
  - intros [msg Hmsg]. discriminate Hmsg.
  - eexists. split; [reflexivity|]. vm_compute. reflexivity.
Qed.

(* ===================================================================== *)
(** ** remove_assumption *)
(* ===================================================================== *)

(** What the code does when the first argument is an assumption: the test
    [isinstance(assumption, ResolvedClause)] is false, and the clause comes
    back as it was. *)
Lemma remove_assumption_of_assumption l c :
  remove_assumption (Assumption l) c = c.
Proof. destruct c; reflexivity. Qed.

(** C2 at the input [a = Assumption(x1)], [c = resolve(a, {-x1})]: [a] is
    the first parent of [c] and differs from [c], yet the call returns [c]
    and not the rewritten second parent, whose literals are not those of
    [c]. *)
Theorem remove_assumption_keeps_first_parent :
  let a := Assumption x1 in
  let c := resolve a (AxiomClause {[ neg x1 ]}) in
  clause_eqb a c = false ∧
  (∃ s c2, c = ResolvedClause s a c2 ∧
           remove_assumption a c2 = AxiomClause {[ neg x1 ]}) ∧
  remove_assumption a c = c ∧
  clause_eqb (remove_assumption a c) (AxiomClause {[ neg x1 ]}) = false.
Proof.
  simpl. split; [vm_compute; reflexivity|]. split.
  - eexists _, _. split; reflexivity.
  - split; vm_compute; reflexivity.
Qed.

(** C3 at the input [a = Assumption(x1)], [c = resolve({-x1}, a)]: [c] has
    no literal and differs from [a]; the call returns [c], whose proof tree
    still contains [a]. *)
Theorem remove_assumption_leaves_assumption :
  let a := Assumption x1 in
  let c := resolve (AxiomClause {[ neg x1 ]}) a in
  clause_eqb a c = false ∧ literals c = ∅ ∧
  remove_assumption a c = c ∧
  dag_contains a (remove_assumption a c) = true.
Proof.
  simpl. repeat split; vm_compute; reflexivity.
Qed.

(* ===================================================================== *)
(** ** Sets of clauses *)
(* ===================================================================== *)

Lemma lit_in_add F c s :
  lit_in (add F c) s ↔ lit_in F s ∨ s = literals c.
Proof.
  unfold add, lit_in. case_bool_decide as Hin.
  - split; [auto|]. intros [?| ->]; [done|].
    apply list_elem_of_fmap in Hin as (c' & ? & ?). eauto.
  - split.
    + intros (c' & Hc' & <-). apply elem_of_app in Hc' as [?|Hc'].
      * left. eauto.
      * apply list_elem_of_singleton in Hc' as ->. auto.
    + intros [(c' & ? & ?)| ->].
      * exists c'. rewrite elem_of_app. auto.
      * exists c. rewrite elem_of_app, list_elem_of_singleton. auto.
Qed.

Lemma elem_of_add F c c' : c' ∈ add F c → c' ∈ F ∨ c' = c.
Proof.
  unfold add. case_bool_decide; [auto|].
  rewrite elem_of_app, list_elem_of_singleton. auto.
Qed.

Lemma add_subseteq F c c' : c' ∈ F → c' ∈ add F c.
Proof.
  unfold add. case_bool_decide; [auto|]. rewrite elem_of_app. auto.
Qed.

Lemma length_add F c : (length (add F c) ≤ S (length F))%nat.
Proof.
  unfold add. case_bool_decide; [lia|]. rewrite length_app. simpl. lia.
Qed.

Lemma lit_in_nil s : ¬ lit_in [] s.
Proof. intros (c & Hc & _). by apply elem_of_nil in Hc. Qed.

Lemma lit_in_elem c F : c ∈ F → lit_in F (literals c).
Proof. intros. exists c. done. Qed.

Lemma var_in_lit F x :
  var_in F x ↔ ∃ s l, lit_in F s ∧ l ∈ s ∧ variable l = x.
Proof.
  split.
  - intros (c & l & ? & ? & ?). exists (literals c), l.
    split; [by apply lit_in_elem | done].
  - intros (s & l & (c & ? & <-) & ? & ?). exists c, l. done.
Qed.

Lemma has_empty_lit F : has_empty F ↔ lit_in F ∅.
Proof. reflexivity. Qed.

Lemma len_unit c : len c = 1%nat → ∃ l, literals c = {[ l ]}.
Proof.
  unfold len. intros Hs. apply size_1_elem_of in Hs as [l Hl].
  exists l. by apply leibniz_equiv.
Qed.

Lemma len_singleton c l : literals c = {[ l ]} → len c = 1%nat.
Proof. unfold len. intros ->. apply size_singleton. Qed.

Lemma len_empty c : len c = 0%nat ↔ literals c = ∅.
Proof. unfold len. rewrite size_empty_iff. by unfold_leibniz. Qed.

(** Resolving a clause that holds [-l] against the unit clause [{l}]
    removes the literals on the variable of [l], and nothing else. *)
Lemma elem_of_resolve_unit c u l l' :
  literals u = {[ l ]} → neg l ∈ literals c →
  l' ∈ literals (resolve c u) ↔ l' ∈ literals c ∧ variable l' ≠ variable l.
Proof.
  intros Hu Hneg. rewrite elem_of_resolve, elem_of_res_var, Hu.
  split.
  - intros [Hor Hnot].
    assert (variable l' ≠ variable l) as Hv.
    { intros Hv. apply Hnot. exists (neg l).
      rewrite neg_involutive, elem_of_singleton. done. }
    split; [|done]. destruct Hor as [?|Hl']; [done|].
    apply elem_of_singleton in Hl'. by subst.
  - intros [Hl' Hv]. split; [auto|].
    intros (l0 & _ & H0 & Hv0). apply elem_of_singleton in H0.
    apply Hv. rewrite <- Hv0, <- H0. reflexivity.
Qed.

(* ===================================================================== *)
(** ** unit_propagate_literal *)
(* ===================================================================== *)

Section SolverProofs.

Variable set_iter : Formula → Formula.
Variable clause_iter : gset Literal → list Literal.
Hypothesis set_iter_perm : ∀ F, set_iter F ≡ₚ F.
Hypothesis clause_iter_perm : ∀ s, clause_iter s ≡ₚ elements s.

Local Abbreviation first_of := (first clause_iter).
Local Abbreviation upl := (unit_propagate_literal set_iter clause_iter).
Local Abbreviation units_of := (get_unit_clauses set_iter).
Local Abbreviation for_units := (propagate_units set_iter clause_iter).
Local Abbreviation up_loop := (unit_propagate_loop set_iter clause_iter).
Local Abbreviation up := (unit_propagate set_iter clause_iter).
Local Abbreviation select := (select_variable set_iter clause_iter).
Local Abbreviation solve := (dpll_internal set_iter clause_iter).

Lemma elem_of_set_iter c F : c ∈ set_iter F ↔ c ∈ F.
Proof. by rewrite set_iter_perm. Qed.

Lemma length_set_iter F : length (set_iter F) = length F.
Proof. by rewrite set_iter_perm. Qed.

Lemma lit_in_set_iter F s : lit_in (set_iter F) s ↔ lit_in F s.
Proof. unfold lit_in. by setoid_rewrite elem_of_set_iter. Qed.

Lemma first_singleton u l : literals u = {[ l ]} → first_of u = Some l.
Proof.
  intros Hu. unfold first. rewrite Hu.
  pose proof (clause_iter_perm {[ l ]}) as Hp.
  rewrite elements_singleton in Hp.
  apply Permutation_singleton_r in Hp. by rewrite Hp.
Qed.

Lemma elem_of_clause_iter l s : l ∈ clause_iter s ↔ l ∈ s.
Proof. by rewrite clause_iter_perm, elem_of_elements. Qed.

Lemma unit_propagate_literal_unit F u l :
  literals u = {[ l ]} →
  upl F u = Done (foldl (propagate_clause l u) [] (set_iter F)).
Proof.
  intros Hu. unfold unit_propagate_literal.
  rewrite (len_singleton _ _ Hu), (first_singleton _ _ Hu).
  rewrite bool_decide_eq_false_2; [reflexivity | auto].
Qed.

(** What one pass over the clauses puts into the new formula. *)
Lemma lit_in_propagate u l L acc s :
  lit_in (foldl (propagate_clause l u) acc L) s ↔
  (lit_in acc s ∨
   (∃ c, c ∈ L ∧ l ∉ literals c ∧
         ((neg l ∈ literals c ∧ s = literals (resolve c u)) ∨
          (neg l ∉ literals c ∧ s = literals c)))).
Proof.
  revert acc. induction L as [|c L IH]; intros acc; simpl.
  - split; [auto|]. intros [?|(c & Hc & _)]; [done|].
    by apply elem_of_nil in Hc.
  - rewrite IH. unfold propagate_clause.
    setoid_rewrite elem_of_cons.
    repeat case_bool_decide; rewrite ?lit_in_add; naive_solver.
Qed.

Lemma lit_in_unit_propagate_literal F u l F' s :
  literals u = {[ l ]} → upl F u = Done F' →
  lit_in F' s ↔
  ∃ c, c ∈ F ∧ l ∉ literals c ∧
       ((neg l ∈ literals c ∧ s = literals (resolve c u)) ∨
        (neg l ∉ literals c ∧ s = literals c)).
Proof.
  intros Hu Hrun. rewrite (unit_propagate_literal_unit _ _ _ Hu) in Hrun.
  injection Hrun as <-. rewrite lit_in_propagate.
  setoid_rewrite elem_of_set_iter. split; [|auto].
  intros [Hnil|?]; [|done]. by apply lit_in_nil in Hnil.
Qed.

Lemma length_propagate u l L acc :
  (length (foldl (propagate_clause l u) acc L) ≤ length acc + length L)%nat ∧
  ((∃ c, c ∈ L ∧ l ∈ literals c) →
   (length (foldl (propagate_clause l u) acc L) < length acc + length L)%nat).
Proof.
  revert acc. induction L as [|c L IH]; intros acc; simpl.
  - split; [lia|]. intros (c & Hc & _). by apply elem_of_nil in Hc.
  - destruct (IH (propagate_clause l u acc c)) as [Hle Hlt].
    unfold propagate_clause in Hle, Hlt |- * .
    case_bool_decide as Hl.
    + split; [lia|]. intros _. lia.
    + assert (length (if bool_decide (neg l ∈ literals c)
                      then add acc (resolve c u) else add acc c)
              ≤ S (length acc))%nat as Hadd
        by (case_bool_decide; apply length_add).
      split; [lia|]. intros (c' & Hc' & Hin).
      apply elem_of_cons in Hc' as [->|Hc']; [done|].
      specialize (Hlt (ex_intro _ c' (conj Hc' Hin))). lia.
Qed.

Lemma length_unit_propagate_literal F u l F' :
  literals u = {[ l ]} → upl F u = Done F' →
  (length F' ≤ length F)%nat ∧
  (lit_in F {[ l ]} → (length F' < length F)%nat).
Proof.
  intros Hu Hrun. rewrite (unit_propagate_literal_unit _ _ _ Hu) in Hrun.
  injection Hrun as <-.
  destruct (length_propagate u l (set_iter F) []) as [Hle Hlt].
  rewrite length_set_iter in Hle, Hlt. simpl in Hle, Hlt.
  split; [done|]. intros (c & Hc & Hlits). apply Hlt.
  exists c. rewrite elem_of_set_iter, Hlits, elem_of_singleton. done.
Qed.

(** After the propagation of [l] no clause mentions the variable of [l]. *)
Lemma unit_propagate_literal_no_var F u l F' :
  literals u = {[ l ]} → upl F u = Done F' → ¬ var_in F' (variable l).
Proof.
  intros Hu Hrun. rewrite var_in_lit. intros (s & l' & Hs & Hl' & Hv).
  apply (lit_in_unit_propagate_literal _ _ _ _ _ Hu Hrun) in Hs
    as (c & _ & Hl & [[Hneg ->]|[Hneg ->]]).
  - apply (elem_of_resolve_unit _ _ _ _ Hu Hneg) in Hl'. tauto.
  - destruct (same_variable _ _ Hv); by subst.
Qed.

Lemma unit_propagate_literal_var_in F u l F' x :
  literals u = {[ l ]} → upl F u = Done F' → var_in F' x → var_in F x.
Proof.
  intros Hu Hrun. rewrite var_in_lit. intros (s & l' & Hs & Hl' & Hv).
  apply (lit_in_unit_propagate_literal _ _ _ _ _ Hu Hrun) in Hs
    as (c & Hc & Hl & [[Hneg ->]|[Hneg ->]]).
  - apply (elem_of_resolve_unit _ _ _ _ Hu Hneg) in Hl' as [? _].
    exists c, l'. done.
  - exists c, l'. done.
Qed.

Lemma unit_propagate_literal_keeps F u l F' s :
  literals u = {[ l ]} → upl F u = Done F' →
  lit_in F s → l ∉ s → neg l ∉ s → lit_in F' s.
Proof.
  intros Hu Hrun (c & Hc & <-) Hl Hneg.
  apply (lit_in_unit_propagate_literal _ _ _ _ _ Hu Hrun).
  exists c. auto.
Qed.

Lemma unit_propagate_literal_has_empty F u l F' :
  literals u = {[ l ]} → upl F u = Done F' → has_empty F → has_empty F'.
Proof.
  intros Hu Hrun He. apply has_empty_lit.
  apply (unit_propagate_literal_keeps _ _ _ _ _ Hu Hrun);
    [done | apply not_elem_of_empty..].
Qed.

Lemma unit_propagate_literal_conflict F u l F' :
  literals u = {[ l ]} → upl F u = Done F' →
  lit_in F {[ neg l ]} → has_empty F'.
Proof.
  intros Hu Hrun (c & Hc & Hlits). apply has_empty_lit.
  apply (lit_in_unit_propagate_literal _ _ _ _ _ Hu Hrun).
  assert (neg l ∈ literals c) as Hneg by (rewrite Hlits; set_solver).
  exists c. split; [done|]. split.
  - rewrite Hlits, elem_of_singleton. intros Heq. by apply (neg_ne l).
  - left. split; [done|]. symmetry. apply set_eq. intros l'.
    rewrite (elem_of_resolve_unit _ _ _ _ Hu Hneg), Hlits, elem_of_singleton.
    split; [|set_solver]. intros [-> Hv]. by destruct Hv.
Qed.

(** An assignment that makes [l] true and satisfies the formula after the
    propagation of [l] satisfies the formula before it. *)
Lemma unit_propagate_literal_sound F u l F' A :
  literals u = {[ l ]} → upl F u = Done F' → holds A l →
  satisfies A F' → satisfies A F.
Proof.
  intros Hu Hrun Hl Hsat c Hc.
  destruct (decide (l ∈ literals c)) as [Hin|Hout]; [by exists l|].
  assert (∀ s, lit_in F' s → ∃ l', l' ∈ s ∧ holds A l') as Hsat'.
  { intros s (c' & Hc' & <-). by apply Hsat. }
  destruct (decide (neg l ∈ literals c)) as [Hneg|Hneg].
  - destruct (Hsat' (literals (resolve c u))) as (l' & Hl' & Hh).
    { apply (lit_in_unit_propagate_literal _ _ _ _ _ Hu Hrun).
      exists c. auto. }
    apply (elem_of_resolve_unit _ _ _ _ Hu Hneg) in Hl' as [? _].
    by exists l'.
  - apply Hsat'. apply (lit_in_unit_propagate_literal _ _ _ _ _ Hu Hrun).
    exists c. auto.
Qed.

(** C10: when [unit] has the single literal [l], [unit_propagate_literal]
    returns, and no clause of the formula it returns has a literal on the
    variable of [l]. *)
Theorem unit_propagate_literal_clears_variable formula unit l :
  literals unit = {[ l ]} →
  ∃ formula',
    unit_propagate_literal set_iter clause_iter formula unit = Done formula' ∧
    ∀ clause l', clause ∈ formula' → l' ∈ literals clause →
                 variable l' ≠ variable l.
Proof.
  intros Hu. eexists. split.
  - by apply unit_propagate_literal_unit.
  - intros c l' Hc Hl' Hv.
    eapply (unit_propagate_literal_no_var formula unit l);
      [done | by apply unit_propagate_literal_unit |].
    exists c, l'. done.
Qed.

(* ===================================================================== *)
(** ** get_unit_clauses and unit_propagate *)
(* ===================================================================== *)

Lemma elem_of_units_fold L acc c :
  c ∈ foldl (λ s c, if bool_decide (len c = 1%nat) then add s c else s)
        acc L →
  c ∈ acc ∨ (c ∈ L ∧ len c = 1%nat).
Proof.
  revert acc. induction L as [|c0 L IH]; intros acc; simpl; [auto|].
  intros Hc. apply IH in Hc as [Hc|[? ?]].
  - case_bool_decide; [|auto].
    apply elem_of_add in Hc as [?| ->]; [auto|].
    right. split; [apply list_elem_of_here | done].
  - right. split; [by apply list_elem_of_further | done].
Qed.

Lemma units_fold_mono L acc c :
  c ∈ acc →
  c ∈ foldl (λ s c, if bool_decide (len c = 1%nat) then add s c else s)
        acc L.
Proof.
  revert acc. induction L as [|c0 L IH]; intros acc Hc; simpl; [done|].
  apply IH. case_bool_decide; [by apply add_subseteq | done].
Qed.

Lemma units_fold_nil L acc :
  foldl (λ s c, if bool_decide (len c = 1%nat) then add s c else s)
        acc L = [] →
  acc = [] ∧ ∀ c, c ∈ L → len c ≠ 1%nat.
Proof.
  revert acc. induction L as [|c0 L IH]; intros acc; simpl.
  - intros ->. split; [done|]. intros c Hc. by apply elem_of_nil in Hc.
  - intros Hnil. apply IH in Hnil as [Hacc Hrest].
    case_bool_decide as Hlen.
    + exfalso. unfold add in Hacc. case_bool_decide as Hin.
      * subst acc. by apply elem_of_nil in Hin.
      * by destruct acc.
    + split; [done|]. intros c Hc.
      apply elem_of_cons in Hc as [->|Hc]; [done | by apply Hrest].
Qed.

Lemma elem_of_get_unit_clauses F c :
  c ∈ units_of F → c ∈ F ∧ len c = 1%nat.
Proof.
  intros Hc. apply elem_of_units_fold in Hc as [Hc|[Hc ?]].
  - by apply elem_of_nil in Hc.
  - split; [by apply elem_of_set_iter | done].
Qed.

Lemma get_unit_clauses_nil F :
  units_of F = [] → ∀ c, c ∈ F → len c ≠ 1%nat.
Proof.
  intros Hnil c Hc. apply units_fold_nil in Hnil as [_ Hall].
  by apply Hall, elem_of_set_iter.
Qed.

Lemma unit_literals_cons u l U :
  literals u = {[ l ]} →
  unit_literals clause_iter (u :: U) = l :: unit_literals clause_iter U.
Proof.
  intros Hu. unfold unit_literals. simpl.
  by rewrite (first_singleton _ _ Hu).
Qed.

Lemma unit_literals_elem l U :
  l ∈ unit_literals clause_iter U → ∃ u, u ∈ U ∧ l ∈ literals u.
Proof.
  unfold unit_literals. rewrite list_elem_of_omap.
  intros (u & Hu & Hfirst). exists u. split; [done|].
  unfold first in Hfirst. apply elem_of_clause_iter.
  destruct (clause_iter (literals u)) as [|l0 ?]; [done|].
  injection Hfirst as ->. apply list_elem_of_here.
Qed.

(** The formula that the loop over the units builds does not depend on
    the dictionary, and the dictionary is the old one updated with the
    literal of each unit in turn. *)
Lemma propagate_units_assignments U F A A0 F' A' :
  for_units U F A = Done (F', A') →
  for_units U F A0 =
  Done (F', foldl record A0 (unit_literals clause_iter U)).
Proof.
  revert F A A0. induction U as [|u U IH]; intros F A A0; simpl.
  - by intros [= <- <-].
  - destruct (upl F u) as [F1| |]; simpl; [|done..].
    unfold unit_literals. simpl.
    destruct (first_of u) as [l|]; [|done]. apply IH.
Qed.

Lemma propagate_units_done U F A :
  (∀ u, u ∈ U → len u = 1%nat) →
  ∃ F', for_units U F A =
        Done (F', foldl record A (unit_literals clause_iter U)) ∧
        (length F' ≤ length F)%nat ∧
        (∀ u U', U = u :: U' → lit_in F (literals u) →
                 (length F' < length F)%nat).
Proof.
  revert F A. induction U as [|u U IH]; intros F A Hunits.
  - exists F. split; [reflexivity|]. split; [lia|]. intros ? ? [=].
  - destruct (len_unit u) as [l Hu]; [apply Hunits, list_elem_of_here|].
    rewrite (unit_literals_cons _ _ _ Hu). simpl.
    rewrite (unit_propagate_literal_unit _ _ _ Hu). simpl.
    rewrite (first_singleton _ _ Hu).
    set (F1 := foldl (propagate_clause l u) [] (set_iter F)).
    destruct (length_unit_propagate_literal F u l F1 Hu) as [Hle Hlt];
      [by apply unit_propagate_literal_unit|].
    destruct (IH F1 (record A l)) as (F' & Hrun & Hle' & _).
    { intros u' Hu'. by apply Hunits, list_elem_of_further. }
    exists F'. split; [done|]. split; [lia|].
    intros u0 U0 [= <- <-] Hin. rewrite Hu in Hin.
    specialize (Hlt Hin). lia.
Qed.

Lemma unit_propagate_loop_done fuel F A :
  (length F < fuel)%nat →
  ∃ F', up_loop fuel F A =
        Done (F', foldl record A
                    (unit_literals clause_iter
                       (propagated set_iter clause_iter fuel F))) ∧
        ∀ c, c ∈ F' → len c ≠ 1%nat.
Proof.
  revert F A. induction fuel as [|fuel IH]; intros F A Hfuel; [lia|].
  simpl. destruct (units_of F) as [|u0 U0] eqn:Hunits.
  - exists F. split; [reflexivity|]. by apply get_unit_clauses_nil.
  - set (U := set_iter (u0 :: U0)).
    assert (∀ u, u ∈ U → u ∈ F ∧ len u = 1%nat) as HU.
    { intros u Hu. apply elem_of_get_unit_clauses. rewrite Hunits.
      by apply elem_of_set_iter. }
    destruct (propagate_units_done U F A) as (F1 & Hrun & _ & Hlt).
    { intros u Hu. by apply HU. }
    rewrite Hrun. simpl.
    rewrite (propagate_units_assignments _ _ _ ∅ _ _ Hrun).
    assert (length F1 < fuel)%nat as Hfuel1.
    { destruct U as [|u U'] eqn:HeqU.
      - pose proof (length_set_iter (u0 :: U0)) as Hlen.
        fold U in Hlen. rewrite HeqU in Hlen. discriminate Hlen.
      - assert (length F1 < length F)%nat; [|lia].
        apply (Hlt u U' eq_refl), lit_in_elem, HU, list_elem_of_here. }
    destruct (IH F1 (foldl record A (unit_literals clause_iter U)) Hfuel1)
      as (F' & Hloop & Hnone).
    exists F'. split; [|done]. rewrite Hloop.
    unfold unit_literals. by rewrite omap_app, foldl_app.
Qed.

Lemma propagated_units fuel F u :
  u ∈ propagated set_iter clause_iter fuel F → len u = 1%nat.
Proof.
  revert F. induction fuel as [|fuel IH]; intros F; simpl.
  - intros Hu. by apply elem_of_nil in Hu.
  - destruct (units_of F) as [|u0 U0] eqn:Hunits.
    + intros Hu. by apply elem_of_nil in Hu.
    + rewrite elem_of_app. intros [Hu|Hu].
      * rewrite elem_of_set_iter, <- Hunits in Hu.
        by apply elem_of_get_unit_clauses in Hu as [_ ?].
      * destruct (for_units _ _ _) as [[F1 ?]| |];
          [by apply IH in Hu | by apply elem_of_nil in Hu..].
Qed.


(* ===================================================================== *)
(** ** What propagation preserves *)
(* ===================================================================== *)

Lemma holds_record A l : holds (record A l) l.
Proof. unfold holds, record. apply lookup_insert_eq. Qed.

Lemma holds_neg A l : holds A l → holds A (neg l) → False.
Proof.
  unfold holds. rewrite variable_neg. intros H1 H2.
  rewrite H1 in H2. injection H2. simpl. by destruct (sign l).
Qed.

Lemma holds_record_other A l l' :
  l' ≠ neg l → holds A l' → holds (record A l) l'.
Proof.
  intros Hne Hl'. unfold holds, record.
  destruct (decide (variable l = variable l')) as [Hv|Hv].
  - destruct (same_variable l l' (eq_sym Hv)) as [-> | ->]; [|done].
    apply lookup_insert_eq.
  - by rewrite lookup_insert_ne.
Qed.

Lemma holds_foldl_record U A l :
  holds A l → neg l ∉ U → holds (foldl record A U) l.
Proof.
  revert A. induction U as [|l0 U IH]; intros A Hl Hn; simpl; [done|].
  apply not_elem_of_cons in Hn as [Hne Hn]. apply IH; [|done].
  apply holds_record_other; [|done].
  intros ->. apply Hne. by rewrite neg_involutive.
Qed.

Lemma lookup_foldl_record U A x :
  (∀ l, l ∈ U → variable l ≠ x) → foldl record A U !! x = A !! x.
Proof.
  revert A. induction U as [|l0 U IH]; intros A Hall; simpl; [done|].
  rewrite IH.
  - unfold record. apply lookup_insert_ne, Hall, list_elem_of_here.
  - intros l Hl. by apply Hall, list_elem_of_further.
Qed.

Lemma simplifies_refl F A : simplifies F A F A.
Proof. unfold simplifies. auto. Qed.

Lemma simplifies_trans F A F1 A1 F2 A2 :
  simplifies F A F1 A1 → simplifies F1 A1 F2 A2 → simplifies F A F2 A2.
Proof.
  intros (Hv1 & Hf1 & He1 & Hs1) (Hv2 & Hf2 & He2 & Hs2).
  split; [auto|]. split; [|split; [auto|]].
  - intros x Hx. rewrite Hf2; [by apply Hf1|]. intros Hx1. by apply Hx, Hv1.
  - intros Hne A0 Hagree Hsat.
    apply Hs1; [tauto| |by apply Hs2].
    intros x Hx. rewrite <- Hf2 by done. apply Hagree.
    intros Hx2. by apply Hx, Hv2.
Qed.

Lemma pending_step F A u l U F1 :
  literals u = {[ l ]} → upl F u = Done F1 →
  pending F A (l :: U) → pending F1 (record A l) U.
Proof.
  intros Hu Hrun Hpend l' Hl'.
  pose proof (unit_propagate_literal_no_var _ _ _ _ Hu Hrun) as Hno.
  destruct (Hpend l') as [Hin|[He|[Hout Hh]]];
    [by apply list_elem_of_further|..].
  - destruct (decide (l' = l)) as [->|Hne].
    { right. right. split; [done | apply holds_record]. }
    destruct (decide (l' = neg l)) as [->|Hne'].
    { right. left.
      by apply (unit_propagate_literal_conflict _ _ _ _ Hu Hrun). }
    left. apply (unit_propagate_literal_keeps _ _ _ _ _ Hu Hrun Hin).
    + rewrite elem_of_singleton. congruence.
    + rewrite elem_of_singleton. congruence.
  - right. left. by apply (unit_propagate_literal_has_empty _ _ _ _ Hu Hrun).
  - destruct (decide (l' = neg l)) as [->|Hne].
    + destruct (Hpend l) as [Hin|[He|[Hout' Hh']]];
        [apply list_elem_of_here|..].
      * destruct Hout. rewrite variable_neg. apply var_in_lit.
        exists {[ l ]}, l. rewrite elem_of_singleton. done.
      * right. left.
        by apply (unit_propagate_literal_has_empty _ _ _ _ Hu Hrun).
      * destruct (holds_neg _ _ Hh' Hh).
    + right. right. split.
      * intros Hin. apply Hout.
        by apply (unit_propagate_literal_var_in _ _ _ _ _ Hu Hrun).
      * by apply holds_record_other.
Qed.

Lemma propagate_units_simplifies U F A F' A' :
  (∀ u, u ∈ U → len u = 1%nat) →
  for_units U F A = Done (F', A') →
  pending F A (unit_literals clause_iter U) →
  (∀ x, var_in F' x → var_in F x) ∧
  (has_empty F → has_empty F') ∧
  (¬ has_empty F' →
   (∀ l, l ∈ unit_literals clause_iter U →
         holds A' l ∧ ¬ var_in F' (variable l)) ∧
   ∀ A0, (∀ x, ¬ var_in F' x → A0 !! x = A' !! x) →
         satisfies A0 F' → satisfies A0 F).
Proof.
  revert F A. induction U as [|u U IH]; intros F A Hunits Hrun Hpend.
  - injection Hrun as <- <-. split; [auto|]. split; [auto|].
    intros _. split; [|auto]. intros l Hl. by apply elem_of_nil in Hl.
  - destruct (len_unit u) as [l Hu]; [apply Hunits, list_elem_of_here|].
    rewrite (unit_literals_cons _ _ _ Hu) in Hpend |- *.
    simpl in Hrun. rewrite (unit_propagate_literal_unit _ _ _ Hu) in Hrun.
    simpl in Hrun. rewrite (first_singleton _ _ Hu) in Hrun.
    set (F1 := foldl (propagate_clause l u) [] (set_iter F)) in *.
    assert (upl F u = Done F1) as Hstep
      by (by apply unit_propagate_literal_unit).
    pose proof (unit_propagate_literal_no_var _ _ _ _ Hu Hstep) as Hno.
    pose proof (pending_step _ _ _ _ _ _ Hu Hstep Hpend) as Hpend1.
    destruct (IH F1 (record A l)) as (Hv & He & Hs); [|done|done|].
    { intros u' Hu'. by apply Hunits, list_elem_of_further. }
    split; [|split].
    + intros x Hx.
      by apply (unit_propagate_literal_var_in _ _ _ _ _ Hu Hstep), Hv.
    + intros Hemp.
      by apply He, (unit_propagate_literal_has_empty _ _ _ _ Hu Hstep).
    + intros Hne. destruct (Hs Hne) as [Hlits Hsat].
      assert (holds A' l) as Hl.
      { pose proof (propagate_units_assignments _ _ _ (record A l) _ _ Hrun)
          as Hrun'.
        rewrite Hrun in Hrun'. injection Hrun' as ->.
        apply holds_foldl_record; [apply holds_record|].
        intros Hin. destruct (Hpend1 _ Hin) as [Hin1|[He1|[_ Hh]]].
        - apply Hno. rewrite <- (variable_neg l). apply var_in_lit.
          exists {[ neg l ]}, (neg l). rewrite elem_of_singleton. done.
        - by apply Hne, He.
        - apply (holds_neg (record A l) l); [apply holds_record | done]. }
      split.
      * intros l' Hl'. apply elem_of_cons in Hl' as [->|Hl']; [|by apply Hlits].
        split; [done|]. intros Hin. by apply Hno, Hv.
      * intros A0 Hagree Hsat'.
        apply (unit_propagate_literal_sound _ _ _ _ _ Hu Hstep).
        -- unfold holds. rewrite Hagree; [done|].
           intros Hin. by apply Hno, Hv.
        -- by apply Hsat.
Qed.

Lemma snapshot_units F u :
  u ∈ set_iter (units_of F) → u ∈ F ∧ len u = 1%nat.
Proof.
  intros Hu. rewrite elem_of_set_iter in Hu.
  by apply elem_of_get_unit_clauses.
Qed.

Lemma snapshot_pending F A :
  pending F A (unit_literals clause_iter (set_iter (units_of F))).
Proof.
  intros l Hl. left. apply unit_literals_elem in Hl as (u & Hu & Hl).
  destruct (snapshot_units F u Hu) as [HuF Hlen].
  destruct (len_unit u Hlen) as [l0 Hl0]. exists u. split; [done|].
  rewrite Hl0 in Hl |- *. apply elem_of_singleton in Hl. by subst.
Qed.

Lemma propagate_snapshot_simplifies F A F' A' :
  for_units (set_iter (units_of F)) F A = Done (F', A') →
  simplifies F A F' A'.
Proof.
  intros Hrun.
  destruct (propagate_units_simplifies _ _ _ _ _
              (λ u Hu, proj2 (snapshot_units F u Hu)) Hrun
              (snapshot_pending F A)) as (Hv & He & Hs).
  split; [done|]. split; [|split; [done|]].
  - intros x Hx.
    pose proof (propagate_units_assignments _ _ _ A _ _ Hrun) as Hrun'.
    rewrite Hrun in Hrun'. injection Hrun' as ->.
    apply lookup_foldl_record. intros l Hl <-.
    apply unit_literals_elem in Hl as (u & Hu & Hl).
    apply Hx. exists u, l. split; [by apply snapshot_units | done].
  - intros Hne. by apply Hs.
Qed.

Lemma unit_propagate_loop_simplifies fuel F A F' A' :
  up_loop fuel F A = Done (F', A') → simplifies F A F' A'.
Proof.
  revert F A. induction fuel as [|fuel IH]; intros F A; simpl; [done|].
  destruct (units_of F) as [|u0 U0] eqn:Hunits.
  - intros [= <- <-]. apply simplifies_refl.
  - rewrite <- Hunits.
    destruct (for_units (set_iter (units_of F)) F A) as [[F1 A1]| |] eqn:Hrun;
      simpl; [|done..].
    intros Hloop. eapply simplifies_trans.
    + by apply propagate_snapshot_simplifies.
    + by apply IH.
Qed.

(** Without an empty clause at the end, the dictionary makes the literal
    of every propagated unit true. *)
Lemma unit_propagate_loop_records fuel F A F' A' l :
  up_loop fuel F A = Done (F', A') → ¬ has_empty F' →
  l ∈ unit_literals clause_iter (propagated set_iter clause_iter fuel F) →
  holds A' l.
Proof.
  revert F A. induction fuel as [|fuel IH]; intros F A; simpl; [done|].
  destruct (units_of F) as [|u0 U0] eqn:Hunits.
  { intros _ _ Hl. by apply elem_of_nil in Hl. }
  rewrite <- Hunits.
  destruct (for_units (set_iter (units_of F)) F A) as [[F1 A1]| |] eqn:Hrun;
    simpl; [|done..].
  rewrite (propagate_units_assignments _ _ _ ∅ _ _ Hrun).
  intros Hloop Hne. unfold unit_literals. rewrite omap_app, elem_of_app.
  intros [Hl|Hl]; [|by eapply IH].
  pose proof (unit_propagate_loop_simplifies _ _ _ _ _ Hloop)
    as (_ & Hframe & He & _).
  destruct (propagate_units_simplifies _ _ _ _ _
              (λ u Hu, proj2 (snapshot_units F u Hu)) Hrun
              (snapshot_pending F A)) as (_ & _ & Hs).
  destruct Hs as [Hlits _]; [tauto|].
  destruct (Hlits l Hl) as [Hh Hout].
  unfold holds. by rewrite Hframe.
Qed.

(** C7: [unit_propagate] returns on every formula and dictionary; the
    formula it returns has no clause of length 1; the clauses it propagated
    are unit clauses, and the dictionary it leaves is the one it was given
    in which, for each of them in turn, the variable of its literal was set
    to the literal's sign. Unless the returned formula has an empty clause
    (two units on one variable were propagated), the dictionary that is
    returned maps the variable of every propagated literal to its sign. *)
Theorem unit_propagate_terminates formula assignments :
  ∃ formula' assignments',
    unit_propagate set_iter clause_iter formula assignments
    = Done (formula', assignments') ∧
    (∀ clause, clause ∈ formula' → len clause ≠ 1%nat) ∧
    (∀ unit, unit ∈ propagated set_iter clause_iter
                      (S (length formula)) formula →
             len unit = 1%nat) ∧
    assignments' =
    foldl (λ a l, <[variable l := sign l]> a) assignments
      (unit_literals clause_iter
         (propagated set_iter clause_iter (S (length formula)) formula)) ∧
    (¬ has_empty formula' →
     ∀ l, l ∈ unit_literals clause_iter
                (propagated set_iter clause_iter
                   (S (length formula)) formula) →
          assignments' !! variable l = Some (sign l)).
Proof.
  destruct (unit_propagate_loop_done (S (length formula)) formula assignments)
    as (F' & Hrun & Hnone); [lia|].
  exists F'. eexists. split; [exact Hrun|]. split; [exact Hnone|].
  split; [|split; [reflexivity|]].
  - intros u. apply propagated_units.
  - intros Hne l Hl. by apply (unit_propagate_loop_records _ _ _ _ _ l Hrun).
Qed.

(* ===================================================================== *)
(** ** dpll_internal *)
(* ===================================================================== *)

Local Arguments unit_propagate : simpl never.
Local Arguments select_variable : simpl never.
Local Arguments union_set : simpl never.
Local Arguments remove_assumption : simpl never.

Lemma find_empty_none F :
  List.find (λ c, bool_decide (len c = 0%nat)) (set_iter F) = None →
  ¬ has_empty F.
Proof.
  intros Hfind (c & Hc & Hlits).
  pose proof (List.find_none _ _ Hfind c) as Hc'.
  rewrite bool_decide_eq_false, len_empty in Hc'. apply Hc'; [|done].
  by apply list_elem_of_In, elem_of_set_iter.
Qed.

Lemma find_empty_some F c :
  List.find (λ c, bool_decide (len c = 0%nat)) (set_iter F) = Some c →
  c ∈ F ∧ literals c = ∅.
Proof.
  intros Hfind. apply List.find_some in Hfind as [Hin Hlen].
  apply list_elem_of_In in Hin. rewrite elem_of_set_iter in Hin.
  apply bool_decide_eq_true in Hlen. rewrite len_empty in Hlen. done.
Qed.

Lemma find_empty_is_some F :
  has_empty F →
  ∃ c, List.find (λ c, bool_decide (len c = 0%nat)) (set_iter F) = Some c.
Proof.
  intros He.
  destruct (List.find _ (set_iter F)) as [c|] eqn:Hfind; [eauto|].
  by apply find_empty_none in Hfind.
Qed.

Lemma select_variable_in_elem L v :
  select_variable_in clause_iter L = Some v →
  ∃ c l, c ∈ L ∧ l ∈ literals c ∧ variable l = v.
Proof.
  induction L as [|c L IH]; simpl; [done|].
  destruct (clause_iter (literals c)) as [|l ls] eqn:Hiter.
  - intros Hsel. destruct (IH Hsel) as (c' & l' & ? & ? & ?).
    exists c', l'. split; [by apply list_elem_of_further | done].
  - intros [= <-]. exists c, l. split; [apply list_elem_of_here|].
    split; [|done]. apply elem_of_clause_iter. rewrite Hiter.
    apply list_elem_of_here.
Qed.

Lemma select_variable_var_in F v : select F = Some v → var_in F v.
Proof.
  intros Hsel. apply select_variable_in_elem in Hsel as (c & l & Hc & ? & ?).
  exists c, l. split; [by apply elem_of_set_iter | done].
Qed.

Lemma union_set_singleton F c : union_set F [c] = add F c.
Proof. reflexivity. Qed.

(** The clause of an [UNSATResult] has no literal. *)
Lemma dpll_internal_unsat_empty fuel F A c A' :
  solve fuel F A = Done (UNSATResult c, A') → literals c = ∅.
Proof.
  revert F A c A'. induction fuel as [|fuel IH]; intros F A c A'; [done|].
  simpl. destruct (up F A) as [[F1 A1]| |]; simpl; [|done..].
  destruct F1 as [|c1 F1]; [done|].
  destruct (List.find _ _) as [c0|] eqn:Hfind.
  { intros [= <- <-]. by apply find_empty_some in Hfind as [_ ?]. }
  destruct (select _) as [v|]; [|done].
  destruct (solve fuel _ A1) as [[[Asat|c'] A2]| |] eqn:Htrue;
    simpl; [done| |done..].
  apply IH in Htrue. rewrite remove_assumption_of_assumption.
  rewrite bool_decide_eq_true_2 by (by apply len_empty).
  by intros [= <- <-].
Qed.

(** C9: when the call on the formula extended with the true-branch
    assumption returns an [UNSATResult], [dpll_internal] returns that
    result at once, and what it returns does not depend on the second
    recursive call [rec], which is not run. *)
Theorem false_branch_never_runs
    fuel formula assignments formula1 assignments1 branch_on clause
    assignments2 :
  unit_propagate set_iter clause_iter formula assignments
  = Done (formula1, assignments1) →
  formula1 ≠ [] →
  List.find (λ c, bool_decide (len c = 0%nat)) (set_iter formula1) = None →
  select_variable set_iter clause_iter formula1 = Some branch_on →
  dpll_internal set_iter clause_iter fuel
    (union_set formula1 [Assumption (mkLiteral branch_on true)]) assignments1
  = Done (UNSATResult clause, assignments2) →
  dpll_internal set_iter clause_iter (S fuel) formula assignments
  = Done (UNSATResult clause, assignments2) ∧
  ∀ rec, after_true_branch rec formula1
           (Assumption (mkLiteral branch_on true))
           (UNSATResult clause) assignments2
         = Done (UNSATResult clause, assignments2).
Proof.
  intros Hup Hne Hfind Hsel Htrue.
  assert (∀ rec, after_true_branch rec formula1
                   (Assumption (mkLiteral branch_on true))
                   (UNSATResult clause) assignments2
                 = Done (UNSATResult clause, assignments2)) as Hafter.
  { intros rec. unfold after_true_branch.
    rewrite remove_assumption_of_assumption.
    apply dpll_internal_unsat_empty, len_empty in Htrue.
    by rewrite bool_decide_eq_true_2. }
  split; [|exact Hafter].
  simpl. rewrite Hup. simpl. destruct formula1 as [|c1 F1]; [done|].
  rewrite Hfind, Hsel, Htrue. simpl. apply Hafter.
Qed.

Lemma var_in_add F c x :
  var_in (add F c) x → var_in F x ∨ ∃ l, l ∈ literals c ∧ variable l = x.
Proof.
  intros (c' & l & Hc' & Hl & Hv).
  apply elem_of_add in Hc' as [?| ->]; [left|right].
  - exists c', l. done.
  - exists l. done.
Qed.

(** The assignment of a [SATResult] satisfies the formula, and differs
    from the dictionary given to the call on variables of the formula
    only. *)
Lemma dpll_internal_sat fuel F A A' A'' :
  solve fuel F A = Done (SATResult A', A'') →
  satisfies A' F ∧ ∀ x, ¬ var_in F x → A' !! x = A !! x.
Proof.
  revert F A A' A''. induction fuel as [|fuel IH]; intros F A A' A''; [done|].
  simpl. destruct (up F A) as [[F1 A1]| |] eqn:Hup; simpl; [|done..].
  apply unit_propagate_loop_simplifies in Hup as (Hv & Hf & He & Hs).
  destruct F1 as [|c1 F1].
  { intros [= <- <-]. split; [|done].
    apply Hs; [|done|].
    - intros (c & Hc & _). by apply elem_of_nil in Hc.
    - intros c Hc. by apply elem_of_nil in Hc. }
  destruct (List.find _ _) as [c0|] eqn:Hfind; [done|].
  apply find_empty_none in Hfind.
  destruct (select _) as [v|] eqn:Hsel; [|done].
  apply select_variable_var_in in Hsel.
  destruct (solve fuel _ A1) as [[[Asat|c'] A2]| |] eqn:Htrue;
    simpl; [| |done..].
  - intros [= <- <-]. apply IH in Htrue as [Hsat Hframe].
    assert (∀ x, ¬ var_in (c1 :: F1) x → Asat !! x = A1 !! x) as Hframe1.
    { intros x Hx. apply Hframe. rewrite union_set_singleton.
      intros [?|(l & Hl & <-)]%var_in_add; [done|].
      simpl in Hl. apply elem_of_singleton in Hl. by subst. }
    split.
    + apply Hs; [done|done|]. intros c Hc. apply Hsat.
      rewrite union_set_singleton. by apply add_subseteq.
    + intros x Hx. rewrite Hframe1, Hf; [done..|].
      intros Hx1. by apply Hx, Hv.
  - apply dpll_internal_unsat_empty in Htrue.
    rewrite remove_assumption_of_assumption.
    by rewrite bool_decide_eq_true_2 by (by apply len_empty).
Qed.

(** C4: when [dpll] returns a [SATResult], every clause of the formula has
    a literal whose variable the assignment maps to the literal's sign. *)
Theorem dpll_sat_sound fuel formula assignments :
  dpll set_iter clause_iter fuel formula = Done (SATResult assignments) →
  ∀ clause, clause ∈ formula →
    ∃ l, l ∈ literals clause ∧ assignments !! variable l = Some (sign l).
Proof.
  unfold dpll. intros Hrun.
  destruct (solve fuel formula ∅) as [[r A'']| |] eqn:Hsolve; [|done..].
  simpl in Hrun. injection Hrun as ->.
  apply dpll_internal_sat in Hsolve as [Hsat _]. exact Hsat.
Qed.

Lemma set_iter_nil : set_iter [] = [].
Proof. apply Permutation_nil_r, set_iter_perm. Qed.

Lemma set_iter_singleton c : set_iter [c] = [c].
Proof. apply Permutation_singleton_r, set_iter_perm. Qed.

Lemma unit_propagate_no_units F A :
  (∀ c, c ∈ F → len c ≠ 1%nat) → up F A = Done (F, A).
Proof.
  intros Hnone. unfold unit_propagate. simpl.
  destruct (units_of F) as [|u U] eqn:Hunits; [reflexivity|].
  destruct (elem_of_get_unit_clauses F u) as [Hu Hlen].
  - rewrite Hunits. apply list_elem_of_here.
  - by destruct (Hnone u Hu).
Qed.

(** C8, as the code has it: on the empty formula [dpll] returns a
    [SATResult] with an empty dictionary; on the formula made of one empty
    axiom it returns an [UNSATResult] whose proof is that axiom; on any
    formula that holds an empty axiom it returns an [UNSATResult] whose
    clause has no literal. *)
Theorem dpll_trivial_formulas fuel :
  dpll set_iter clause_iter (S fuel) [] = Done (SATResult ∅) ∧
  dpll set_iter clause_iter (S fuel) [AxiomClause ∅]
  = Done (UNSATResult (AxiomClause ∅)) ∧
  ∀ formula, AxiomClause ∅ ∈ formula →
    ∃ clause, dpll set_iter clause_iter (S fuel) formula
              = Done (UNSATResult clause) ∧
              literals clause = ∅.
Proof.
  split; [|split].
  - unfold dpll. simpl. rewrite unit_propagate_no_units; [reflexivity|].
    intros c Hc. by apply elem_of_nil in Hc.
  - unfold dpll. simpl. rewrite unit_propagate_no_units.
    + simpl. rewrite set_iter_singleton. simpl.
      rewrite bool_decide_eq_true_2 by (by apply len_empty). reflexivity.
    + intros c Hc. apply list_elem_of_singleton in Hc as ->.
      assert (len (AxiomClause ∅) = 0%nat) as -> by (by apply len_empty).
      done.
  - intros F Hin. unfold dpll. simpl.
    destruct (unit_propagate_loop_done (S (length F)) F ∅)
      as (F1 & Hup & _); [lia|].
    fold (up F ∅) in Hup. rewrite Hup. simpl.
    apply unit_propagate_loop_simplifies in Hup as (_ & _ & He & _).
    destruct He as (c & Hc & Hlits); [by exists (AxiomClause ∅)|].
    destruct (find_empty_is_some F1) as [c0 Hfind]; [by exists c|].
    destruct F1 as [|c1 F1]; [by apply elem_of_nil in Hc|].
    rewrite Hfind. simpl. exists c0. split; [done|].
    by apply find_empty_some in Hfind as [_ ?].
Qed.

(* ===================================================================== *)
(** ** Termination of the search *)
(* ===================================================================== *)

Lemma elem_of_variables_of F x : x ∈ variables_of F ↔ var_in F x.
Proof.
  unfold variables_of, var_in. rewrite elem_of_union_list. split.
  - intros (X & HX & Hx). apply list_elem_of_fmap in HX as (c & -> & Hc).
    apply elem_of_map in Hx as (l & -> & Hl). exists c, l. done.
  - intros (c & l & Hc & Hl & <-).
    exists (set_map variable (literals c)). split.
    + apply list_elem_of_fmap. exists c. done.
    + apply elem_of_map. exists l. done.
Qed.

Lemma propagate_units_var_in U F A F' A' x :
  (∀ u, u ∈ U → len u = 1%nat) →
  for_units U F A = Done (F', A') → var_in F' x → var_in F x.
Proof.
  revert F A. induction U as [|u U IH]; intros F A Hunits Hrun.
  - by injection Hrun as <- <-.
  - destruct (len_unit u) as [l Hu]; [apply Hunits, list_elem_of_here|].
    simpl in Hrun. rewrite (unit_propagate_literal_unit _ _ _ Hu) in Hrun.
    simpl in Hrun. rewrite (first_singleton _ _ Hu) in Hrun.
    intros Hx. eapply unit_propagate_literal_var_in;
      [done | by apply unit_propagate_literal_unit |].
    eapply IH; [|done..]. intros u' Hu'. by apply Hunits, list_elem_of_further.
Qed.

(** A propagated literal's variable is in no clause afterwards. *)
Lemma propagate_units_clears U F A F' A' l :
  (∀ u, u ∈ U → len u = 1%nat) →
  for_units U F A = Done (F', A') →
  l ∈ unit_literals clause_iter U → ¬ var_in F' (variable l).
Proof.
  revert F A. induction U as [|u U IH]; intros F A Hunits Hrun Hl.
  - by apply elem_of_nil in Hl.
  - destruct (len_unit u) as [l0 Hu]; [apply Hunits, list_elem_of_here|].
    rewrite (unit_literals_cons _ _ _ Hu) in Hl.
    simpl in Hrun. rewrite (unit_propagate_literal_unit _ _ _ Hu) in Hrun.
    simpl in Hrun. rewrite (first_singleton _ _ Hu) in Hrun.
    assert (∀ u', u' ∈ U → len u' = 1%nat) as Hunits'.
    { intros u' Hu'. by apply Hunits, list_elem_of_further. }
    apply elem_of_cons in Hl as [->|Hl]; [|by eapply IH].
    intros Hin. apply (propagate_units_var_in _ _ _ _ _ _ Hunits' Hrun) in Hin.
    revert Hin. eapply unit_propagate_literal_no_var;
      [done | by apply unit_propagate_literal_unit].
Qed.

Lemma lit_in_units_fold L acc c :
  c ∈ L → len c = 1%nat →
  lit_in (foldl (λ s c, if bool_decide (len c = 1%nat) then add s c else s)
            acc L) (literals c).
Proof.
  revert acc. induction L as [|c0 L IH]; intros acc Hc Hlen.
  - by apply elem_of_nil in Hc.
  - simpl. apply elem_of_cons in Hc as [<-|Hc]; [|by apply IH].
    rewrite bool_decide_eq_true_2 by done.
    assert (lit_in (add acc c) (literals c)) as (c' & Hc' & Heq)
      by (apply lit_in_add; auto).
    exists c'. split; [by apply units_fold_mono | done].
Qed.

(** A unit clause of the formula is propagated: its variable is in no
    clause of the formula that [unit_propagate] returns. *)
Lemma unit_propagate_clears_unit F A F' A' l :
  up F A = Done (F', A') → lit_in F {[ l ]} → ¬ var_in F' (variable l).
Proof.
  unfold unit_propagate. simpl. intros Hrun (c & Hc & Hlits).
  assert (lit_in (units_of F) {[ l ]}) as (u & Hu & Hul).
  { rewrite <- Hlits. apply lit_in_units_fold.
    - by apply elem_of_set_iter.
    - by apply len_singleton in Hlits. }
  destruct (units_of F) as [|u0 U0] eqn:Hunits; [by apply elem_of_nil in Hu|].
  rewrite <- Hunits in Hrun.
  destruct (for_units (set_iter (units_of F)) F A) as [[F1 A1]| |] eqn:Hfor;
    simpl in Hrun; [|done..].
  apply unit_propagate_loop_simplifies in Hrun as (Hv & _).
  intros Hin. apply Hv in Hin. revert Hin.
  eapply propagate_units_clears; [|done|].
  - intros u' Hu'. rewrite elem_of_set_iter in Hu'.
    by apply elem_of_get_unit_clauses in Hu' as [_ ?].
  - unfold unit_literals. apply list_elem_of_omap. exists u. split.
    + apply elem_of_set_iter. by rewrite Hunits.
    + by apply first_singleton.
Qed.

Lemma select_variable_some F :
  F ≠ [] → ¬ has_empty F → ∃ v, select F = Some v.
Proof.
  intros Hne Hemp. unfold select_variable.
  destruct (set_iter F) as [|c L] eqn:Hiter.
  { destruct Hne. symmetry. apply Permutation_nil_l. by rewrite <- Hiter. }
  simpl. destruct (clause_iter (literals c)) as [|l ls] eqn:Hlits; [|eauto].
  destruct Hemp. exists c. split.
  - apply elem_of_set_iter. rewrite Hiter. apply list_elem_of_here.
  - apply leibniz_equiv, elements_empty_iff. symmetry.
    apply Permutation_nil_l. by rewrite <- clause_iter_perm, Hlits.
Qed.

Lemma dpll_internal_done fuel F A F1 A1 :
  up F A = Done (F1, A1) →
  (size (variables_of F1) < fuel)%nat →
  ∃ r A', solve fuel F A = Done (r, A').
Proof.
  revert F A F1 A1.
  induction fuel as [|fuel IH]; intros F A F1 A1 Hup Hfuel; [lia|].
  simpl. rewrite Hup. simpl.
  destruct F1 as [|c1 F1']; [eauto|]. set (F1 := c1 :: F1') in *.
  destruct (List.find _ _) as [c0|] eqn:Hfind; [eauto|].
  apply find_empty_none in Hfind.
  destruct (select_variable_some F1) as [v Hsel]; [done..|].
  rewrite Hsel. apply select_variable_var_in in Hsel.
  set (a := Assumption (mkLiteral v true)).
  destruct (unit_propagate_loop_done (S (length (union_set F1 [a])))
              (union_set F1 [a]) A1) as (F3 & Hup3 & _); [lia|].
  fold (up (union_set F1 [a]) A1) in Hup3.
  assert (variables_of F3 ⊂ variables_of F1) as Hlt.
  { pose proof Hup3 as Hup3'.
    apply unit_propagate_loop_simplifies in Hup3' as (Hv & _).
    assert (v ∉ variables_of F3) as Hv3.
    { rewrite elem_of_variables_of.
      apply (unit_propagate_clears_unit _ _ _ _ (mkLiteral v true) Hup3).
      rewrite union_set_singleton. apply lit_in_add. auto. }
    split.
    - intros x Hx. apply elem_of_variables_of in Hx. apply Hv in Hx.
      rewrite union_set_singleton in Hx. apply elem_of_variables_of.
      apply var_in_add in Hx as [Hx|(l & Hl & <-)]; [done|].
      simpl in Hl. by apply elem_of_singleton in Hl as ->.
    - intros Hsup. by apply Hv3, Hsup, elem_of_variables_of. }
  apply subset_size in Hlt. subst a.
  destruct (IH _ _ _ _ Hup3) as ([Asat|c'] & A2 & Htrue); [lia|..];
    rewrite Htrue; simpl; [eauto|].
  apply dpll_internal_unsat_empty in Htrue.
  rewrite remove_assumption_of_assumption.
  rewrite bool_decide_eq_true_2 by (by apply len_empty). eauto.
Qed.

(** The search returns: one call per variable of the formula, and one
    more, are enough. *)
Lemma dpll_terminates F :
  ∃ r, dpll set_iter clause_iter (S (size (variables_of F))) F = Done r.
Proof.
  destruct (unit_propagate_loop_done (S (length F)) F ∅)
    as (F1 & Hup & _); [lia|].
  fold (up F ∅) in Hup.
  destruct (dpll_internal_done (S (size (variables_of F))) F ∅ _ _ Hup)
    as (r & A' & Hrun).
  - apply unit_propagate_loop_simplifies in Hup as (Hv & _).
    assert (variables_of F1 ⊆ variables_of F) as Hsub.
    { intros x. rewrite !elem_of_variables_of. apply Hv. }
    apply subseteq_size in Hsub. lia.
  - exists r. unfold dpll. by rewrite Hrun.
Qed.

(** The clause of the [UNSATResult] that [dpll] returns has no literal. *)
Lemma dpll_unsat_empty fuel F c :
  dpll set_iter clause_iter fuel F = Done (UNSATResult c) → literals c = ∅.
Proof.
  unfold dpll. intros Hrun.
  destruct (solve fuel F ∅) as [[r A'']| |] eqn:Hsolve; [|done..].
  simpl in Hrun. injection Hrun as ->.
  by apply dpll_internal_unsat_empty in Hsolve.
Qed.

(* ===================================================================== *)
(** ** More on resolve *)
(* ===================================================================== *)

Lemma res_var_symmetric c1 c2 : res_var c1 c2 = res_var c2 c1.
Proof using.
  apply set_eq. intros x. rewrite !elem_of_res_var. split.
  - intros (l & H1 & H2 & <-). exists (neg l).
    by rewrite neg_involutive, variable_neg.
  - intros (l & H1 & H2 & <-). exists (neg l).
    by rewrite neg_involutive, variable_neg.
Qed.

(** X1: the order of the two inputs of [resolve] changes the parents it
    records, not the variables it resolves nor the literals of the
    result. *)
Theorem resolve_symmetric c1 c2 :
  res_var c1 c2 = res_var c2 c1 ∧
  literals (resolve c1 c2) = literals (resolve c2 c1).
Proof using.
  split; [apply res_var_symmetric|].
  apply set_eq. intros l.
  rewrite !elem_of_resolve, (res_var_symmetric c2 c1). tauto.
Qed.

Lemma resolve_keeps_tautology_free c1 c2 :
  tautology_free c1 → tautology_free c2 → tautology_free (resolve c1 c2).
Proof using.
  intros Ht1 Ht2 l Hl Hneg.
  apply elem_of_resolve in Hl as [Hl Hv].
  apply elem_of_resolve in Hneg as [Hneg _].
  destruct Hl as [Hl|Hl], Hneg as [Hneg|Hneg].
  - by apply (Ht1 l).
  - apply Hv, elem_of_res_var. exists l. done.
  - apply Hv, elem_of_res_var. exists (neg l).
    by rewrite neg_involutive, variable_neg.
  - by apply (Ht2 l).
Qed.

(** X2: when neither input holds a literal together with its negation,
    neither does the clause that [resolve] returns. *)
Theorem resolve_tautology_free c1 c2 :
  tautology_free c1 → tautology_free c2 →
  ∀ l, l ∈ literals (resolve c1 c2) → neg l ∉ literals (resolve c1 c2).
Proof using.
  intros Ht1 Ht2. exact (resolve_keeps_tautology_free c1 c2 Ht1 Ht2).
Qed.

(** X3: when the inputs are free of tautologies and exactly one variable
    is resolved, an assignment that satisfies both inputs satisfies the
    clause that [resolve] returns. *)
Theorem resolve_sound c1 c2 x A :
  tautology_free c1 → tautology_free c2 → res_var c1 c2 = {[ x ]} →
  satisfied A c1 → satisfied A c2 → satisfied A (resolve c1 c2).
Proof using.
  intros Ht1 Ht2 Hres (l1 & Hl1 & Hh1) (l2 & Hl2 & Hh2).
  destruct (decide (variable l1 = x)) as [Hx1|Hx1].
  2:{ exists l1. split; [|done]. apply elem_of_resolve.
      split; [auto|]. rewrite Hres, elem_of_singleton. done. }
  destruct (decide (variable l2 = x)) as [Hx2|Hx2].
  2:{ exists l2. split; [|done]. apply elem_of_resolve.
      split; [auto|]. rewrite Hres, elem_of_singleton. done. }
  exfalso.
  assert (l2 = l1) as ->.
  { destruct (same_variable l1 l2) as [?| ->]; [congruence|done|].
    destruct (holds_neg _ _ Hh1 Hh2). }
  assert (x ∈ res_var c1 c2) as Hin
    by (rewrite Hres; by apply elem_of_singleton).
  apply elem_of_res_var in Hin as (l & Hc1 & Hc2 & Hv).
  destruct (same_variable l1 l) as [-> | ->]; [congruence|..].
  - by apply (Ht2 l1).
  - apply (Ht1 (neg l1)); [done|]. by rewrite neg_involutive.
Qed.

(** X4: resolving a clause that holds [-l] against the unit clause [{l}]
    removes [l] and [-l] from it and nothing else; the result is shorter
    than the clause. *)
Theorem resolve_with_unit c u l :
  literals u = {[ l ]} → neg l ∈ literals c →
  literals (resolve c u) = literals c ∖ {[ l; neg l ]} ∧
  (len (resolve c u) < len c)%nat.
Proof using.
  intros Hu Hneg.
  assert (literals (resolve c u) = literals c ∖ {[ l; neg l ]}) as Heq.
  { apply set_eq. intros l'.
    rewrite (elem_of_resolve_unit _ _ _ _ Hu Hneg), elem_of_difference.
    rewrite elem_of_union, !elem_of_singleton. split.
    - intros [? Hv]. split; [done|]. intros [-> | ->]; by apply Hv.
    - intros [? Hn]. split; [done|]. intros Hv.
      destruct (same_variable _ _ Hv); tauto. }
  split; [done|]. unfold len. rewrite Heq. apply subset_size.
  split; [apply subseteq_difference_l; reflexivity|]. intros Hsub.
  specialize (Hsub _ Hneg). apply elem_of_difference in Hsub as [_ Hsub].
  apply Hsub. rewrite elem_of_union, !elem_of_singleton. auto.
Qed.

(* ===================================================================== *)
(** ** More on unit_propagate_literal and get_unit_clauses *)
(* ===================================================================== *)

Lemma unit_propagate_literal_inv F u F' :
  upl F u = Done F' →
  ∃ l, literals u = {[ l ]} ∧
       F' = foldl (propagate_clause l u) [] (set_iter F).
Proof.
  intros Hrun. destruct (decide (len u = 1%nat)) as [Hlen|Hlen].
  - destruct (len_unit u Hlen) as [l Hu]. exists l. split; [done|].
    rewrite (unit_propagate_literal_unit _ _ _ Hu) in Hrun. congruence.
  - unfold unit_propagate_literal in Hrun.
    by rewrite bool_decide_eq_true_2 in Hrun.
Qed.

(** X5: [unit_propagate_literal] returns a formula when the clause it is
    given has exactly one literal, and raises, whatever the formula, when
    it has none or several. *)
Theorem unit_propagate_literal_unit_only formula unit :
  (len unit = 1%nat →
   ∃ formula',
     unit_propagate_literal set_iter clause_iter formula unit
     = Done formula') ∧
  (len unit ≠ 1%nat →
   unit_propagate_literal set_iter clause_iter formula unit
   = Fault "Trying to propagate non-unit clause").
Proof.
  split.
  - intros Hlen. destruct (len_unit unit Hlen) as [l Hu].
    eexists. by apply unit_propagate_literal_unit.
  - intros Hlen. unfold unit_propagate_literal.
    by rewrite bool_decide_eq_true_2.
Qed.

Lemma unit_propagate_literal_complete F u l F' A :
  literals u = {[ l ]} → upl F u = Done F' → holds A l →
  satisfies A F → satisfies A F'.
Proof.
  intros Hu Hrun Hl Hsat c' Hc'.
  apply lit_in_elem in Hc'.
  apply (lit_in_unit_propagate_literal _ _ _ _ _ Hu Hrun) in Hc'
    as (c & Hc & Hout & [[Hneg Heq]|[Hneg Heq]]).
  - destruct (Hsat c Hc) as (l' & Hl' & Hh). exists l'. split; [|done].
    rewrite Heq. apply (elem_of_resolve_unit _ _ _ _ Hu Hneg).
    split; [done|]. intros Hv.
    destruct (same_variable _ _ Hv) as [-> | ->]; [done|].
    by destruct (holds_neg A l).
  - destruct (Hsat c Hc) as (l' & Hl' & Hh). exists l'. by rewrite Heq.
Qed.

(** X6: under an assignment that makes the propagated literal true, the
    formula that [unit_propagate_literal] returns is satisfied exactly when
    the formula it was given is. *)
Theorem unit_propagate_literal_equivalent formula unit l formula' A :
  literals unit = {[ l ]} →
  unit_propagate_literal set_iter clause_iter formula unit = Done formula' →
  A !! variable l = Some (sign l) →
  (satisfies A formula ↔ satisfies A formula').
Proof.
  intros Hu Hrun Hl. split.
  - by apply (unit_propagate_literal_complete _ _ _ _ _ Hu Hrun).
  - by apply (unit_propagate_literal_sound _ _ _ _ _ Hu Hrun).
Qed.

(** X7: the formula that [unit_propagate_literal] returns has no more
    clauses than the one it was given, and fewer when the unit clause is
    one of them. *)
Theorem unit_propagate_literal_shrinks formula unit formula' :
  unit_propagate_literal set_iter clause_iter formula unit = Done formula' →
  (length formula' ≤ length formula)%nat ∧
  (unit ∈ formula → (length formula' < length formula)%nat).
Proof.
  intros Hrun.
  destruct (unit_propagate_literal_inv _ _ _ Hrun) as (l & Hu & _).
  destruct (length_unit_propagate_literal _ _ _ _ Hu Hrun) as [Hle Hlt].
  split; [done|]. intros Hin. apply Hlt. exists unit. done.
Qed.

(** X8: propagating a literal whose variable does not occur in the formula
    gives back the same clauses (the same literal sets). *)
Theorem unit_propagate_literal_absent formula unit l formula' :
  literals unit = {[ l ]} →
  unit_propagate_literal set_iter clause_iter formula unit = Done formula' →
  ¬ var_in formula (variable l) →
  ∀ s, lit_in formula' s ↔ lit_in formula s.
Proof.
  intros Hu Hrun Hout s.
  rewrite (lit_in_unit_propagate_literal _ _ _ _ _ Hu Hrun).
  assert (∀ c l', c ∈ formula → variable l' = variable l →
                  l' ∉ literals c) as Hnot.
  { intros c l' Hc Hv Hl'. apply Hout. exists c, l'. done. }
  split.
  - intros (c & Hc & _ & [[Hneg _]|[_ ->]]).
    + by destruct (Hnot c (neg l) Hc).
    + by exists c.
  - intros (c & Hc & <-). exists c. split; [done|].
    split; [by apply Hnot|]. right. split; [by apply Hnot | done].
Qed.

(** X9: [get_unit_clauses] returns clauses of the formula that have
    exactly one literal, misses none of them (up to equality of clauses),
    and returns nothing exactly when the formula has no such clause. *)
Theorem get_unit_clauses_exact formula :
  (∀ c, c ∈ get_unit_clauses set_iter formula →
        c ∈ formula ∧ len c = 1%nat) ∧
  (∀ c, c ∈ formula → len c = 1%nat →
        ∃ u, u ∈ get_unit_clauses set_iter formula ∧
             clause_eqb u c = true) ∧
  (get_unit_clauses set_iter formula = [] ↔
   ∀ c, c ∈ formula → len c ≠ 1%nat).
Proof.
  split; [|split].
  - intros c. apply elem_of_get_unit_clauses.
  - intros c Hc Hlen.
    destruct (lit_in_units_fold (set_iter formula) [] c) as (u & Hu & Heq);
      [by apply elem_of_set_iter | done |].
    exists u. split; [done|]. by apply bool_decide_eq_true.
  - split; [apply get_unit_clauses_nil|]. intros Hnone.
    destruct (get_unit_clauses set_iter formula) as [|u U] eqn:Hunits;
      [done|].
    destruct (elem_of_get_unit_clauses formula u) as [Hu Hlen].
    + rewrite Hunits. apply list_elem_of_here.
    + by destruct (Hnone u Hu).
Qed.

(* ===================================================================== *)
(** ** More on unit_propagate *)
(* ===================================================================== *)

Lemma unit_propagate_no_unit_left F A F' A' :
  up F A = Done (F', A') → ∀ c, c ∈ F' → len c ≠ 1%nat.
Proof.
  intros Hrun.
  destruct (unit_propagate_loop_done (S (length F)) F A)
    as (F'' & Hrun' & Hnone); [lia|].
  fold (up F A) in Hrun'. rewrite Hrun in Hrun'. by injection Hrun' as -> _.
Qed.

(** X10: [unit_propagate] returns a formula without unit clause and its
    dictionary as they are; so it is idempotent: run on the formula and the
    dictionary it has returned, it returns them unchanged. *)
Theorem unit_propagate_idempotent formula assignments :
  ((∀ c, c ∈ formula → len c ≠ 1%nat) →
   unit_propagate set_iter clause_iter formula assignments
   = Done (formula, assignments)) ∧
  (∀ formula' assignments',
     unit_propagate set_iter clause_iter formula assignments
     = Done (formula', assignments') →
     unit_propagate set_iter clause_iter formula' assignments'
     = Done (formula', assignments')).
Proof.
  split.
  - apply unit_propagate_no_units.
  - intros F' A' Hrun. apply unit_propagate_no_units.
    by apply (unit_propagate_no_unit_left _ _ _ _ Hrun).
Qed.

Lemma propagate_units_length U F A F' A' :
  (∀ u, u ∈ U → len u = 1%nat) →
  for_units U F A = Done (F', A') → (length F' ≤ length F)%nat.
Proof.
  intros Hunits Hrun.
  destruct (propagate_units_done U F A Hunits) as (F'' & Hrun' & Hle & _).
  rewrite Hrun in Hrun'. by injection Hrun' as -> _.
Qed.

Lemma unit_propagate_loop_length fuel F A F' A' :
  up_loop fuel F A = Done (F', A') → (length F' ≤ length F)%nat.
Proof.
  revert F A. induction fuel as [|fuel IH]; intros F A; simpl; [done|].
  destruct (units_of F) as [|u0 U0] eqn:Hunits.
  { by intros [= <- <-]. }
  rewrite <- Hunits.
  destruct (for_units (set_iter (units_of F)) F A) as [[F1 A1]| |] eqn:Hrun;
    simpl; [|done..].
  intros Hloop. apply IH in Hloop.
  apply propagate_units_length in Hrun; [lia|].
  intros u Hu. by apply snapshot_units in Hu as [_ ?].
Qed.

(** X11: [unit_propagate] brings in no variable and no clause: every
    variable of the formula it returns occurs in the formula it was given,
    which has at least as many clauses; and it changes the dictionary on
    variables of that formula only. *)
Theorem unit_propagate_frame formula assignments formula' assignments' :
  unit_propagate set_iter clause_iter formula assignments
  = Done (formula', assignments') →
  (∀ x, var_in formula' x → var_in formula x) ∧
  (length formula' ≤ length formula)%nat ∧
  (∀ x, ¬ var_in formula x → assignments' !! x = assignments !! x).
Proof.
  intros Hrun.
  pose proof (unit_propagate_loop_length _ _ _ _ _ Hrun) as Hlen.
  apply unit_propagate_loop_simplifies in Hrun as (Hv & Hf & _).
  auto.
Qed.

Lemma propagate_units_complete U F A F' A' A0 :
  (∀ u, u ∈ U → len u = 1%nat ∧ satisfied A0 u) →
  for_units U F A = Done (F', A') → satisfies A0 F → satisfies A0 F'.
Proof.
  revert F A. induction U as [|u U IH]; intros F A Hunits Hrun Hsat.
  - by injection Hrun as <- <-.
  - destruct (Hunits u) as [Hlen (l0 & Hl0 & Hh)]; [apply list_elem_of_here|].
    destruct (len_unit u Hlen) as [l Hu].
    rewrite Hu in Hl0. apply elem_of_singleton in Hl0 as ->.
    simpl in Hrun. rewrite (unit_propagate_literal_unit _ _ _ Hu) in Hrun.
    simpl in Hrun. rewrite (first_singleton _ _ Hu) in Hrun.
    eapply IH; [|exact Hrun|].
    + intros u' Hu'. by apply Hunits, list_elem_of_further.
    + eapply unit_propagate_literal_complete;
        [done | by apply unit_propagate_literal_unit | done..].
Qed.

Lemma unit_propagate_loop_complete fuel F A F' A' A0 :
  up_loop fuel F A = Done (F', A') → satisfies A0 F → satisfies A0 F'.
Proof.
  revert F A. induction fuel as [|fuel IH]; intros F A; simpl; [done|].
  destruct (units_of F) as [|u0 U0] eqn:Hunits.
  { by intros [= <- <-]. }
  rewrite <- Hunits.
  destruct (for_units (set_iter (units_of F)) F A) as [[F1 A1]| |] eqn:Hrun;
    simpl; [|done..].
  intros Hloop Hsat. apply (IH _ _ Hloop).
  eapply propagate_units_complete; [|exact Hrun|done].
  intros u Hu. apply snapshot_units in Hu as [HuF Hlen]. auto.
Qed.

(** X12: [unit_propagate] keeps the models of the formula: an assignment
    that satisfies the formula it was given satisfies the one it returns.
    So when the formula it returns holds an empty clause, no assignment
    satisfies the formula it was given. *)
Theorem unit_propagate_keeps_models formula assignments formula' assignments' :
  unit_propagate set_iter clause_iter formula assignments
  = Done (formula', assignments') →
  (∀ A, satisfies A formula → satisfies A formula') ∧
  (has_empty formula' → ∀ A, ¬ satisfies A formula).
Proof.
  intros Hrun.
  assert (∀ A, satisfies A formula → satisfies A formula') as Hkeep.
  { intros A. by apply (unit_propagate_loop_complete _ _ _ _ _ _ Hrun). }
  split; [done|]. intros (c & Hc & Hlits) A Hsat.
  destruct (Hkeep A Hsat c Hc) as (l & Hl & _).
  rewrite Hlits in Hl. by apply not_elem_of_empty in Hl.
Qed.

(** X13: when [unit_propagate] returns the empty formula, the dictionary
    it returns satisfies every clause of the formula it was given. *)
Theorem unit_propagate_decides formula assignments assignments' :
  unit_propagate set_iter clause_iter formula assignments
  = Done ([], assignments') →
  ∀ clause, clause ∈ formula →
    ∃ l, l ∈ literals clause ∧
         assignments' !! variable l = Some (sign l).
Proof.
  intros Hrun.
  apply unit_propagate_loop_simplifies in Hrun as (_ & _ & _ & Hs).
  apply Hs.
  - intros (c & Hc & _). by apply elem_of_nil in Hc.
  - done.
  - intros c Hc. by apply elem_of_nil in Hc.
Qed.

Lemma is_Some_foldl_record_key U A x :
  is_Some (A !! x) ∨ (∃ l, l ∈ U ∧ variable l = x) →
  is_Some (foldl record A U !! x).
Proof.
  revert A. induction U as [|l0 U IH]; intros A; simpl.
  - intros [?|(l & Hl & _)]; [done | by apply elem_of_nil in Hl].
  - intros Hor. apply IH. unfold record.
    destruct (decide (variable l0 = x)) as [<-|Hne].
    { left. rewrite lookup_insert_eq. eauto. }
    rewrite lookup_insert_ne by done.
    destruct Hor as [?|(l & Hl & Hv)]; [auto|].
    apply elem_of_cons in Hl as [->|Hl]; [done|]. eauto.
Qed.

Lemma is_Some_foldl_record U A l :
  l ∈ U → is_Some (foldl record A U !! variable l).
Proof. intros Hl. apply is_Some_foldl_record_key. eauto. Qed.

Lemma propagated_first_snapshot F l :
  lit_in F {[ l ]} →
  l ∈ unit_literals clause_iter
        (propagated set_iter clause_iter (S (length F)) F).
Proof.
  intros (c & Hc & Hlits). simpl.
  assert (lit_in (units_of F) {[ l ]}) as (u & Hu & Hul).
  { rewrite <- Hlits. apply lit_in_units_fold.
    - by apply elem_of_set_iter.
    - by apply len_singleton in Hlits. }
  destruct (units_of F) as [|u0 U0] eqn:Hunits; [by apply elem_of_nil in Hu|].
  unfold unit_literals. rewrite omap_app, elem_of_app. left.
  apply list_elem_of_omap. exists u. split.
  - by apply elem_of_set_iter.
  - by apply first_singleton.
Qed.

(** X14: every unit clause [{l}] of the formula given to [unit_propagate]
    is propagated: the variable of [l] occurs in no clause of the formula
    that is returned and is a key of the dictionary that is returned,
    which maps it to the sign of [l] unless the returned formula holds an
    empty clause. *)
Theorem unit_propagate_assigns_units
    formula assignments formula' assignments' clause l :
  unit_propagate set_iter clause_iter formula assignments
  = Done (formula', assignments') →
  clause ∈ formula → literals clause = {[ l ]} →
  ¬ var_in formula' (variable l) ∧
  is_Some (assignments' !! variable l) ∧
  (¬ has_empty formula' → assignments' !! variable l = Some (sign l)).
Proof.
  intros Hrun Hc Hlits.
  assert (lit_in formula {[ l ]}) as Hin by (by exists clause).
  pose proof (propagated_first_snapshot formula l Hin) as Htrace.
  split; [by apply (unit_propagate_clears_unit _ _ _ _ _ Hrun)|].
  split.
  - destruct (unit_propagate_loop_done (S (length formula)) formula
                assignments) as (F'' & Hrun' & _); [lia|].
    fold (up formula assignments) in Hrun'. rewrite Hrun in Hrun'.
    injection Hrun' as _ ->. by apply is_Some_foldl_record.
  - intros Hne. by apply (unit_propagate_loop_records _ _ _ _ _ l Hrun).
Qed.

(* ===================================================================== *)
(** ** What every clause of the formula keeps *)
(* ===================================================================== *)

Section Preserved.

(** A property of clauses that a step of unit resolution keeps. *)
Variable P : Clause → Prop.
Hypothesis P_resolve : ∀ c u l,
  P c → P u → literals u = {[ l ]} → neg l ∈ literals c → l ∉ literals c →
  P (resolve c u).

Lemma propagate_clause_preserves u l L acc :
  literals u = {[ l ]} → P u →
  (∀ c, c ∈ acc → P c) → (∀ c, c ∈ L → P c) →
  ∀ c, c ∈ foldl (propagate_clause l u) acc L → P c.
Proof.
  intros Hu HPu. revert acc.
  induction L as [|c0 L IH]; intros acc Hacc HL; simpl; [done|].
  apply IH; [|intros c Hc; by apply HL, list_elem_of_further].
  assert (P c0) as HP0 by apply HL, list_elem_of_here.
  unfold propagate_clause. intros c Hc. repeat case_bool_decide.
  - by apply Hacc.
  - apply elem_of_add in Hc as [?| ->]; [by apply Hacc|].
    by apply (P_resolve c0 u l).
  - apply elem_of_add in Hc as [?| ->]; [by apply Hacc | done].
Qed.

Lemma unit_propagate_literal_preserves F u F' :
  (∀ c, c ∈ F → P c) → P u → upl F u = Done F' → ∀ c, c ∈ F' → P c.
Proof.
  intros HF HPu Hrun.
  destruct (unit_propagate_literal_inv _ _ _ Hrun) as (l & Hu & ->).
  apply propagate_clause_preserves; [done..| |].
  - intros c Hc. by apply elem_of_nil in Hc.
  - intros c Hc. by apply HF, elem_of_set_iter.
Qed.

Lemma propagate_units_preserves U F A F' A' :
  (∀ c, c ∈ F → P c) → (∀ u, u ∈ U → P u) →
  for_units U F A = Done (F', A') → ∀ c, c ∈ F' → P c.
Proof.
  revert F A. induction U as [|u U IH]; intros F A HF HU; simpl.
  - by intros [= <- <-].
  - destruct (upl F u) as [F1| |] eqn:Hstep; simpl; [|done..].
    destruct (first_of u) as [l|]; [|done].
    apply IH.
    + apply (unit_propagate_literal_preserves F u F1 HF); [|done].
      apply HU, list_elem_of_here.
    + intros u' Hu'. by apply HU, list_elem_of_further.
Qed.

Lemma unit_propagate_loop_preserves fuel F A F' A' :
  (∀ c, c ∈ F → P c) →
  up_loop fuel F A = Done (F', A') → ∀ c, c ∈ F' → P c.
Proof.
  revert F A. induction fuel as [|fuel IH]; intros F A HF; simpl; [done|].
  destruct (units_of F) as [|u0 U0] eqn:Hunits.
  { by intros [= <- <-]. }
  rewrite <- Hunits.
  destruct (for_units (set_iter (units_of F)) F A) as [[F1 A1]| |] eqn:Hrun;
    simpl; [|done..].
  apply IH. eapply propagate_units_preserves; [exact HF| |exact Hrun].
  intros u Hu. by apply HF, snapshot_units.
Qed.

Hypothesis P_assumption : ∀ v, P (Assumption (mkLiteral v true)).

Lemma dpll_internal_preserves fuel F A c A' :
  (∀ c, c ∈ F → P c) →
  solve fuel F A = Done (UNSATResult c, A') → P c.
Proof.
  revert F A c A'. induction fuel as [|fuel IH]; intros F A c A' HF; [done|].
  simpl. destruct (up F A) as [[F1 A1]| |] eqn:Hup; simpl; [|done..].
  pose proof (unit_propagate_loop_preserves _ _ _ _ _ HF Hup) as HF1.
  destruct F1 as [|c1 F1]; [done|].
  destruct (List.find _ _) as [c0|] eqn:Hfind.
  { intros [= <- <-]. by apply HF1, find_empty_some. }
  destruct (select _) as [v|]; [|done].
  destruct (solve fuel _ A1) as [[[Asat|c'] A2]| |] eqn:Htrue;
    simpl; [done| |done..].
  pose proof (dpll_internal_unsat_empty _ _ _ _ _ Htrue) as Hempty.
  apply IH in Htrue.
  - rewrite remove_assumption_of_assumption.
    rewrite bool_decide_eq_true_2 by (by apply len_empty).
    by intros [= <- <-].
  - intros c2 Hc2. rewrite union_set_singleton in Hc2.
    apply elem_of_add in Hc2 as [?| ->]; [by apply HF1 | done].
Qed.

End Preserved.

(** X15: when no clause of the formula given to [unit_propagate] holds a
    literal together with its negation, none of the formula it returns
    does. *)
Theorem unit_propagate_tautology_free
    formula assignments formula' assignments' :
  unit_propagate set_iter clause_iter formula assignments
  = Done (formula', assignments') →
  (∀ c, c ∈ formula → tautology_free c) →
  ∀ c, c ∈ formula' → tautology_free c.
Proof.
  intros Hrun Hfree.
  eapply (unit_propagate_loop_preserves tautology_free);
    [|exact Hfree|exact Hrun].
  intros c u l Hc _ Hu _ _. apply resolve_keeps_tautology_free; [done|].
  intros l'. rewrite Hu, !elem_of_singleton. intros -> Heq.
  by apply (neg_ne l).
Qed.

(* ===================================================================== *)
(** ** More on select_variable and the search *)
(* ===================================================================== *)

Lemma clause_iter_nil s : clause_iter s = [] ↔ s = ∅.
Proof.
  split.
  - intros Hnil. apply leibniz_equiv, elements_empty_iff. symmetry.
    apply Permutation_nil_l. by rewrite <- clause_iter_perm, Hnil.
  - intros ->. apply Permutation_nil_r.
    by rewrite clause_iter_perm, elements_empty.
Qed.

Lemma select_variable_in_none L :
  select_variable_in clause_iter L = None ↔ ∀ c, c ∈ L → literals c = ∅.
Proof.
  induction L as [|c L IH]; simpl.
  - split; [|done]. intros _ c Hc. by apply elem_of_nil in Hc.
  - destruct (clause_iter (literals c)) as [|l ls] eqn:Hiter.
    + rewrite IH. apply clause_iter_nil in Hiter. split.
      * intros HL c' [->|Hc']%elem_of_cons; [done | by apply HL].
      * intros HL c' Hc'. by apply HL, list_elem_of_further.
    + split; [done|]. intros HL.
      assert (literals c = ∅) as Hempty by apply HL, list_elem_of_here.
      apply clause_iter_nil in Hempty. congruence.
Qed.

(** X16: the variable that [select_variable] returns occurs in the
    formula; it returns nothing exactly when no clause of the formula has a
    literal (an empty formula, or empty clauses only). *)
Theorem select_variable_exact formula :
  (∀ v, select_variable set_iter clause_iter formula = Some v →
        var_in formula v) ∧
  (select_variable set_iter clause_iter formula = None ↔
   ∀ c, c ∈ formula → literals c = ∅).
Proof.
  split; [intros v; apply select_variable_var_in|].
  unfold select_variable. rewrite select_variable_in_none.
  by setoid_rewrite elem_of_set_iter.
Qed.

(** X17: the search returns a result and raises nothing, on every formula,
    as soon as it is allowed one more nested call than the formula has
    variables; an [UNSATResult] then carries a clause without literal. *)
Theorem dpll_returns fuel formula :
  (size (variables_of formula) < fuel)%nat →
  ∃ r, dpll set_iter clause_iter fuel formula = Done r ∧
       ∀ clause, r = UNSATResult clause → literals clause = ∅.
Proof.
  intros Hfuel.
  destruct (unit_propagate_loop_done (S (length formula)) formula ∅)
    as (F1 & Hup & _); [lia|].
  fold (up formula ∅) in Hup.
  destruct (dpll_internal_done fuel formula ∅ _ _ Hup) as (r & A' & Hrun).
  - apply unit_propagate_loop_simplifies in Hup as (Hv & _).
    assert (variables_of F1 ⊆ variables_of formula) as Hsub.
    { intros x. rewrite !elem_of_variables_of. apply Hv. }
    apply subseteq_size in Hsub. lia.
  - exists r. unfold dpll. rewrite Hrun. split; [done|].
    intros c ->. by apply dpll_internal_unsat_empty in Hrun.
Qed.

(** X18: the assignment of a [SATResult] has no key that is not a variable
    of the formula. *)
Theorem dpll_sat_domain fuel formula assignments :
  dpll set_iter clause_iter fuel formula = Done (SATResult assignments) →
  ∀ x, is_Some (assignments !! x) → var_in formula x.
Proof.
  unfold dpll. intros Hrun x Hx.
  destruct (solve fuel formula ∅) as [[r A'']| |] eqn:Hsolve; [|done..].
  simpl in Hrun. injection Hrun as ->.
  apply dpll_internal_sat in Hsolve as [_ Hframe].
  destruct (decide (x ∈ variables_of formula)) as [Hin|Hout].
  - by apply elem_of_variables_of.
  - rewrite Hframe, lookup_empty in Hx.
    + by destruct Hx.
    + by rewrite <- elem_of_variables_of.
Qed.

Lemma derived_from_resolve F c u l :
  derived_from F c → derived_from F u → literals u = {[ l ]} →
  neg l ∈ literals c → l ∉ literals c → derived_from F (resolve c u).
Proof.
  intros [Hc Hlc] [Hu Hlu] Hlits Hneg Hout. split.
  - simpl. split; [reflexivity|]. split; [eauto | done].
  - simpl. intros leaf [?|?]%elem_of_app; auto.
Qed.

Lemma derived_from_assumption F v :
  derived_from F (Assumption (mkLiteral v true)).
Proof.
  split; [done|]. simpl. intros leaf ->%list_elem_of_singleton. eauto.
Qed.

Lemma derived_from_axiom F c :
  is_AxiomClause c = true → c ∈ F → derived_from F c.
Proof.
  destruct c; try done. intros _ Hc. split; [done|].
  simpl. intros leaf ->%list_elem_of_singleton. auto.
Qed.

(** X19: on a formula of axioms, the proof of an [UNSATResult] is a tree
    of unit resolution steps that ends in the empty clause: every inner
    node is [resolve] of its parents, the second a unit clause [{l}] and
    the first a clause that holds [-l] and not [l]; every leaf is an axiom
    of the formula or an assumption, made by the search, that a variable
    is true. *)
Theorem dpll_unsat_proof fuel formula P :
  (∀ c, c ∈ formula → is_AxiomClause c = true) →
  dpll set_iter clause_iter fuel formula = Done (UNSATResult P) →
  literals P = ∅ ∧
  unit_resolution P ∧
  ∀ leaf, leaf ∈ leaves P →
          leaf ∈ formula ∨ ∃ v, leaf = Assumption (mkLiteral v true).
Proof.
  unfold dpll. intros Haxioms Hrun.
  destruct (solve fuel formula ∅) as [[r A'']| |] eqn:Hsolve; [|done..].
  simpl in Hrun. injection Hrun as ->.
  split; [by apply dpll_internal_unsat_empty in Hsolve|].
  apply (dpll_internal_preserves (derived_from formula)) in Hsolve.
  - exact Hsolve.
  - apply derived_from_resolve.
  - apply derived_from_assumption.
  - intros c Hc. apply derived_from_axiom; auto.
Qed.

(** A tree of unit resolution steps is sound: an assignment that
    satisfies its leaves satisfies its root. *)
Lemma unit_resolution_sound c A :
  unit_resolution c → (∀ leaf, leaf ∈ leaves c → satisfied A leaf) →
  satisfied A c.
Proof.
  induction c as [s|l|s c1 IH1 c2 IH2]; simpl.
  - intros _ Hleaf. apply Hleaf, list_elem_of_here.
  - intros _ Hleaf. apply Hleaf, list_elem_of_here.
  - intros (-> & (l & Hu & Hneg & Hout) & H1 & H2) Hleaf.
    destruct IH1 as (l1 & Hl1 & Hh1); [done|..].
    { intros leaf Hin. apply Hleaf, elem_of_app. auto. }
    destruct IH2 as (l2 & Hl2 & Hh2); [done|..].
    { intros leaf Hin. apply Hleaf, elem_of_app. auto. }
    rewrite Hu in Hl2. apply elem_of_singleton in Hl2 as ->.
    exists l1. split; [|done].
    change (l1 ∈ literals (resolve c1 c2)).
    apply (elem_of_resolve_unit _ _ _ _ Hu Hneg). split; [done|].
    intros Hv. destruct (same_variable _ _ Hv) as [-> | ->]; [done|].
    by destruct (holds_neg A l).
Qed.

Lemma leaves_satisfied_or_refuted F A (L : list Clause) :
  satisfies A F →
  (∀ leaf, leaf ∈ L →
           leaf ∈ F ∨ ∃ v, leaf = Assumption (mkLiteral v true)) →
  (∀ leaf, leaf ∈ L → satisfied A leaf) ∨
  (∃ v, Assumption (mkLiteral v true) ∈ L ∧ A !! v ≠ Some true).
Proof.
  intros Hsat. induction L as [|c L IH]; intros HL.
  - left. intros leaf Hin. by apply elem_of_nil in Hin.
  - destruct IH as [Hall|(v & Hin & Hv)].
    { intros leaf Hin. by apply HL, list_elem_of_further. }
    2:{ right. exists v. split; [by apply list_elem_of_further | done]. }
    destruct (HL c) as [Hc|(v & ->)]; [apply list_elem_of_here|..].
    + left. intros leaf [->|Hin]%elem_of_cons; [by apply Hsat | by apply Hall].
    + destruct (decide (A !! v = Some true)) as [Hv|Hv].
      * left. intros leaf [->|Hin]%elem_of_cons; [|by apply Hall].
        exists (mkLiteral v true). split; [simpl; set_solver | done].
      * right. exists v. split; [apply list_elem_of_here | done].
Qed.

Lemma has_assumption_leaf c l :
  Assumption l ∈ leaves c → has_assumption c = true.
Proof.
  induction c as [s|l0|s c1 IH1 c2 IH2]; simpl.
  - intros Hin. by apply list_elem_of_singleton in Hin.
  - done.
  - intros [?|?]%elem_of_app; apply orb_true_iff; auto.
Qed.

(** X20: on a formula of axioms, the proof of an [UNSATResult] refutes the
    formula together with the assumptions at its leaves: every assignment
    that satisfies the formula makes false (or leaves open) a variable
    that a leaf assumes true. So when the proof has no assumption, no
    assignment satisfies the formula. *)
Theorem dpll_unsat_refutes fuel formula P :
  (∀ c, c ∈ formula → is_AxiomClause c = true) →
  dpll set_iter clause_iter fuel formula = Done (UNSATResult P) →
  (∀ A, satisfies A formula →
        ∃ v, Assumption (mkLiteral v true) ∈ leaves P ∧
             A !! v ≠ Some true) ∧
  (has_assumption P = false → ∀ A, ¬ satisfies A formula).
Proof.
  unfold dpll. intros Haxioms Hrun.
  destruct (solve fuel formula ∅) as [[r A'']| |] eqn:Hsolve; [|done..].
  simpl in Hrun. injection Hrun as ->.
  pose proof (dpll_internal_unsat_empty _ _ _ _ _ Hsolve) as Hempty.
  apply (dpll_internal_preserves (derived_from formula)) in Hsolve
    as [Htree Hleaves];
    [|apply derived_from_resolve|apply derived_from_assumption|].
  2:{ intros c Hc. apply derived_from_axiom; auto. }
  assert (∀ A, satisfies A formula →
               ∃ v, Assumption (mkLiteral v true) ∈ leaves P ∧
                    A !! v ≠ Some true) as Hrefute.
  { intros A Hsat.
    destruct (leaves_satisfied_or_refuted formula A (leaves P) Hsat Hleaves)
      as [Hall|?]; [|done].
    destruct (unit_resolution_sound P A Htree Hall) as (l & Hl & _).
    rewrite Hempty in Hl. by apply not_elem_of_empty in Hl. }
  split; [done|]. intros Hnone A Hsat.
  destruct (Hrefute A Hsat) as (v & Hin & _).
  apply has_assumption_leaf in Hin. congruence.
Qed.

Lemma dpll_internal_returns fuel F :
  (size (variables_of F) < fuel)%nat →
  ∃ r A', solve fuel F ∅ = Done (r, A').
Proof.
  intros Hfuel.
  destruct (unit_propagate_loop_done (S (length F)) F ∅)
    as (F1 & Hup & _); [lia|].
  fold (up F ∅) in Hup.
  apply (dpll_internal_done fuel F ∅ _ _ Hup).
  apply unit_propagate_loop_simplifies in Hup as (Hv & _).
  assert (variables_of F1 ⊆ variables_of F) as Hsub.
  { intros x. rewrite !elem_of_variables_of. apply Hv. }
  apply subseteq_size in Hsub. lia.
Qed.

(** X21: on a formula that no assignment satisfies the search answers
    with an [UNSATResult] (given one more nested call than the formula has
    variables). *)
Theorem dpll_unsat_complete fuel formula :
  (size (variables_of formula) < fuel)%nat →
  (∀ A, ¬ satisfies A formula) →
  ∃ P, dpll set_iter clause_iter fuel formula = Done (UNSATResult P) ∧
       literals P = ∅.
Proof.
  intros Hfuel Hunsat.
  destruct (dpll_internal_returns fuel formula Hfuel)
    as ([A|P] & A' & Hrun).
  - apply dpll_internal_sat in Hrun as [Hsat _]. by destruct (Hunsat A).
  - exists P. unfold dpll. rewrite Hrun. split; [done|].
    by apply dpll_internal_unsat_empty in Hrun.
Qed.

End SolverProofs.

(* ===================================================================== *)
(** ** More on remove_assumption *)
(* ===================================================================== *)

Lemma literals_resolve_ext c1 c2 c1' c2' :
  literals c1 = literals c1' → literals c2 = literals c2' →
  literals (resolve c1 c2) = literals (resolve c1' c2').
Proof.
  unfold resolve, res_var. simpl. by intros -> ->.
Qed.

(** X22: on a proof tree whose nodes are all [resolve] of their parents
    and in which no parent equals the target, [remove_assumption] returns a
    tree with the same literals at its root, whose nodes are again all
    [resolve] of their parents; this holds for every target, an assumption
    or not. *)
Theorem remove_assumption_unrelated a c :
  re_resolves c → has_parent a c = false →
  literals (remove_assumption a c) = literals c ∧
  re_resolves (remove_assumption a c).
Proof.
  induction c as [s|l|s c1 IH1 c2 IH2]; [done..|].
  intros (-> & H1 & H2) Hparent. simpl in Hparent.
  apply orb_false_iff in Hparent as [Hparent Hp2].
  apply orb_false_iff in Hparent as [Hparent Hp1].
  apply orb_false_iff in Hparent as [He1 He2].
  destruct (IH1 H1 Hp1) as [Hl1 Hr1]. destruct (IH2 H2 Hp2) as [Hl2 Hr2].
  simpl. destruct (is_ResolvedClause a); [|done].
  rewrite He1, He2. split.
  - by apply literals_resolve_ext.
  - simpl. done.
Qed.


(* ===================================================================== *)
(** ** The solver at one iteration order: examples *)
(* ===================================================================== *)

(** The order in which the elements were added, and the order of
    [elements] for the literals of a clause. *)
Lemma id_iter_perm (F : Formula) : id F ≡ₚ F.
Proof. reflexivity. Qed.

Lemma elements_iter_perm (s : gset Literal) : elements s ≡ₚ elements s.
Proof. reflexivity. Qed.

Lemma unit_propagate_literal_clears_variable_witness :
  ∃ formula',
    unit_propagate_literal id elements four_clauses (Assumption x1)
    = Done formula' ∧
    ∀ clause l', clause ∈ formula' → l' ∈ literals clause →
                 variable l' ≠ variable x1.
Proof.
  apply (unit_propagate_literal_clears_variable id elements
           id_iter_perm elements_iter_perm four_clauses (Assumption x1) x1).
  reflexivity.
Defined.

Lemma unit_propagate_terminates_witness :
  ∃ formula' assignments',
    unit_propagate id elements
      [ AxiomClause {[ x1; x2 ]}; AxiomClause {[ neg x1 ]};
        AxiomClause {[ neg x2 ]} ] ∅
    = Done (formula', assignments') ∧
    ∀ clause, clause ∈ formula' → len clause ≠ 1%nat.
Proof.
  destruct (unit_propagate_terminates id elements
              id_iter_perm elements_iter_perm
              [ AxiomClause {[ x1; x2 ]}; AxiomClause {[ neg x1 ]};
                AxiomClause {[ neg x2 ]} ] ∅)
    as (F' & A' & Hrun & Hnone & _).
  exists F', A'. split; assumption.
Defined.

Lemma false_branch_never_runs_witness :
  ∃ clause assignments2,
    dpll_internal id elements 3 four_clauses ∅
    = Done (UNSATResult clause, assignments2).
Proof.
  eexists _, _.
  refine (proj1 (false_branch_never_runs id elements id_iter_perm
                   2 four_clauses ∅ four_clauses ∅ 2 _ _ _ _ _ _ _)).
  - vm_compute. reflexivity.
  - discriminate.
  - vm_compute. reflexivity.
  - vm_compute. reflexivity.
  - vm_compute. reflexivity.
Defined.

Lemma dpll_sat_sound_witness :
  ∃ l, l ∈ literals (AxiomClause {[ x1; x2 ]}) ∧
       ({[ 2 := true ]} : Assignments) !! variable l = Some (sign l).
Proof.
  apply (dpll_sat_sound id elements id_iter_perm elements_iter_perm 3
           [ AxiomClause {[ x1; x2 ]} ]).
  - vm_compute. reflexivity.
  - apply list_elem_of_here.
Defined.

Lemma dpll_trivial_formulas_witness :
  dpll id elements 1 [] = Done (SATResult ∅) ∧
  dpll id elements 1 [AxiomClause ∅] = Done (UNSATResult (AxiomClause ∅)).
Proof.
  destruct (dpll_trivial_formulas id elements
              id_iter_perm elements_iter_perm 0) as (Hsat & Hunsat & _).
  split; assumption.
Defined.

(** C8 fails on the code: [{x1}, {-x1}, {}] holds an empty axiom. When the
    set is visited in that order, propagating [{x1}] resolves [{-x1}] into
    an empty resolved clause before the empty axiom is reached; the axiom,
    equal to it as a clause, is then not added to the new formula, and the
    proof that [dpll] returns is the resolved clause, not the axiom. *)
Lemma dpll_proof_not_the_axiom :
  AxiomClause ∅ ∈ with_empty_axiom ∧
  dpll id elements 1 with_empty_axiom
  = Done (UNSATResult
            (resolve (AxiomClause {[ neg x1 ]}) (AxiomClause {[ x1 ]}))) ∧
  resolve (AxiomClause {[ neg x1 ]}) (AxiomClause {[ x1 ]}) ≠ AxiomClause ∅.
Proof.
  split; [|split].
  - unfold with_empty_axiom. set_solver.
  - vm_compute. reflexivity.
  - discriminate.
Qed.

(** C1 at the input [four_clauses]: [dpll] returns an [UNSATResult] whose
    clause has no literal, and whose proof tree has the assumption [x2] of
    the search among its leaves: it is not a proof from the axioms. *)
Theorem dpll_proof_keeps_assumption :
  ∃ P, dpll id elements 3 four_clauses = Done (UNSATResult P) ∧
       literals P = ∅ ∧
       has_assumption P = true ∧
       dag_contains (Assumption x2) P = true ∧
       checked_proof four_clauses P = false.
Proof.
  eexists. split; [vm_compute; reflexivity|].
  repeat split; vm_compute; reflexivity.
Qed.

(** The same defect on [{-x1, -x2}, {-x1, x2}, {-x2, x1}], which
    [x1 = false, x2 = false] satisfies: whichever variable the search
    assumes true, it derives the empty clause from the assumption and
    answers [UNSATResult] without trying the other value. *)
Lemma dpll_unsat_on_satisfiable :
  let F := [ AxiomClause {[ neg x1; neg x2 ]}; AxiomClause {[ neg x1; x2 ]};
             AxiomClause {[ neg x2; x1 ]} ] in
  satisfies {[ 1 := false; 2 := false ]} F ∧
  ∃ P, dpll id elements 3 F = Done (UNSATResult P) ∧
       has_assumption P = true.
Proof.
  simpl. split.
  - intros c Hc. apply elem_of_cons in Hc as [->|Hc].
    { exists (neg x1). split; [simpl; set_solver | reflexivity]. }
    apply elem_of_cons in Hc as [->|Hc].
    { exists (neg x1). split; [simpl; set_solver | reflexivity]. }
    apply list_elem_of_singleton in Hc as ->.
    exists (neg x2). split; [simpl; set_solver | reflexivity].
  - eexists. split; vm_compute; reflexivity.
Qed.

(** Two units on one variable: both are propagated, the second write
    replaces the first, and the formula is left with the empty clause. *)
Example unit_propagate_overwrites :
  ∃ F', unit_propagate id elements
          [ AxiomClause {[ x1 ]}; AxiomClause {[ neg x1 ]} ] ∅
        = Done (F', {[ 1 := false ]}) ∧
        has_assumption <$> F' = [false] ∧ literals <$> F' = [∅].
Proof.
  eexists. split; [vm_compute; reflexivity|].
  split; vm_compute; reflexivity.
Qed.

(* ===================================================================== *)
(** ** Examples of the further properties *)
(* ===================================================================== *)

Lemma tautology_free_check c :
  bool_decide (set_Forall (λ l, neg l ∉ literals c) (literals c)) = true →
  tautology_free c.
Proof. intros Hc. apply bool_decide_eq_true in Hc. exact Hc. Qed.

(** [for_each_clause tac]: a property of every clause of a formula given
    as a list, by [tac] on each. *)
Ltac for_each_clause tac :=
  let c := fresh "c" in
  let Hc := fresh "Hc" in
  intros c Hc;
  repeat (apply elem_of_cons in Hc as [->|Hc]; [tac|]);
  by apply elem_of_nil in Hc.

Lemma resolve_tautology_free_witness :
  tautology_free (AxiomClause {[ x1; x2 ]}) ∧
  neg x2 ∉ literals (resolve (AxiomClause {[ x1; x2 ]})
                             (AxiomClause {[ neg x1 ]})).
Proof.
  assert (tautology_free (AxiomClause {[ x1; x2 ]})) as H1
    by (apply tautology_free_check; vm_compute; reflexivity).
  split; [exact H1|].
  apply (resolve_tautology_free _ _ H1).
  - apply tautology_free_check. vm_compute. reflexivity.
  - vm_compute. reflexivity.
Defined.

Lemma resolve_sound_witness :
  satisfied {[ 1 := false; 2 := true ]}
    (resolve (AxiomClause {[ x1; x2 ]}) (AxiomClause {[ neg x1 ]})).
Proof.
  apply (resolve_sound _ _ 1).
  - apply tautology_free_check. vm_compute. reflexivity.
  - apply tautology_free_check. vm_compute. reflexivity.
  - vm_compute. reflexivity.
  - exists x2. split; vm_compute; reflexivity.
  - exists (neg x1). split; vm_compute; reflexivity.
Defined.

Lemma resolve_with_unit_witness :
  literals (resolve (AxiomClause {[ neg x1; x2 ]}) (Assumption x1))
  = literals (AxiomClause {[ neg x1; x2 ]}) ∖ {[ x1; neg x1 ]} ∧
  (len (resolve (AxiomClause {[ neg x1; x2 ]}) (Assumption x1))
   < len (AxiomClause {[ neg x1; x2 ]}))%nat.
Proof.
  apply (resolve_with_unit _ _ x1); [reflexivity|].
  vm_compute. reflexivity.
Defined.

Lemma unit_propagate_literal_unit_only_witness :
  (∃ formula',
     unit_propagate_literal id elements four_clauses (Assumption x1)
     = Done formula') ∧
  unit_propagate_literal id elements four_clauses (AxiomClause ∅)
  = Fault "Trying to propagate non-unit clause".
Proof.
  split.
  - apply (proj1 (unit_propagate_literal_unit_only id elements
                    elements_iter_perm four_clauses (Assumption x1))).
    vm_compute. reflexivity.
  - apply (proj2 (unit_propagate_literal_unit_only id elements
                    elements_iter_perm four_clauses (AxiomClause ∅))).
    vm_compute. discriminate.
Defined.

Lemma unit_propagate_literal_equivalent_witness :
  ∃ formula',
    unit_propagate_literal id elements implied (AxiomClause {[ x1 ]})
    = Done formula' ∧
    (satisfies {[ 1 := true; 2 := true ]} implied ↔
     satisfies {[ 1 := true; 2 := true ]} formula').
Proof.
  eexists. split; [vm_compute; reflexivity|].
  apply (unit_propagate_literal_equivalent id elements
           id_iter_perm elements_iter_perm implied (AxiomClause {[ x1 ]}) x1).
  - reflexivity.
  - vm_compute. reflexivity.
  - vm_compute. reflexivity.
Defined.

Lemma unit_propagate_literal_shrinks_witness :
  ∃ formula',
    unit_propagate_literal id elements implied (AxiomClause {[ x1 ]})
    = Done formula' ∧
    (length formula' < length implied)%nat.
Proof.
  eexists. split; [vm_compute; reflexivity|].
  apply (unit_propagate_literal_shrinks id elements
           id_iter_perm elements_iter_perm implied (AxiomClause {[ x1 ]})).
  - vm_compute. reflexivity.
  - apply list_elem_of_further, list_elem_of_here.
Defined.

Lemma unit_propagate_literal_absent_witness :
  ∃ formula',
    unit_propagate_literal id elements [ AxiomClause {[ x2 ]} ]
      (Assumption x1)
    = Done formula' ∧
    ∀ s, lit_in formula' s ↔ lit_in [ AxiomClause {[ x2 ]} ] s.
Proof.
  eexists. split; [vm_compute; reflexivity|].
  apply (unit_propagate_literal_absent id elements
           id_iter_perm elements_iter_perm _ (Assumption x1) x1).
  - reflexivity.
  - vm_compute. reflexivity.
  - intros (c & l & Hc & Hl & Hv).
    apply list_elem_of_singleton in Hc as ->. simpl in Hl.
    apply elem_of_singleton in Hl as ->. discriminate Hv.
Defined.

Lemma get_unit_clauses_exact_witness :
  get_unit_clauses id four_clauses = [] ↔
  ∀ c, c ∈ four_clauses → len c ≠ 1%nat.
Proof.
  exact (proj2 (proj2 (get_unit_clauses_exact id id_iter_perm four_clauses))).
Defined.

Lemma unit_propagate_idempotent_witness :
  ∃ formula' assignments',
    unit_propagate id elements refuted ∅ = Done (formula', assignments') ∧
    unit_propagate id elements formula' assignments'
    = Done (formula', assignments').
Proof.
  eexists _, _. split; [vm_compute; reflexivity|].
  apply (proj2 (unit_propagate_idempotent id elements
                  id_iter_perm elements_iter_perm refuted ∅)).
  vm_compute. reflexivity.
Defined.

Lemma unit_propagate_frame_witness :
  ∃ formula' assignments',
    unit_propagate id elements refuted ∅ = Done (formula', assignments') ∧
    (length formula' ≤ length refuted)%nat.
Proof.
  eexists _, _. split; [vm_compute; reflexivity|].
  eapply (unit_propagate_frame id elements
            id_iter_perm elements_iter_perm refuted ∅).
  vm_compute. reflexivity.
Defined.

Lemma unit_propagate_keeps_models_witness :
  ∃ formula' assignments',
    unit_propagate id elements refuted ∅ = Done (formula', assignments') ∧
    ∀ A, ¬ satisfies A refuted.
Proof.
  eexists _, _. split; [vm_compute; reflexivity|].
  refine (proj2 (unit_propagate_keeps_models id elements
                   id_iter_perm elements_iter_perm refuted ∅ _ _ _) _).
  - vm_compute. reflexivity.
  - eexists. split; [apply list_elem_of_here|]. vm_compute. reflexivity.
Defined.

Lemma unit_propagate_decides_witness :
  ∃ l, l ∈ literals (AxiomClause {[ neg x1; x2 ]}) ∧
       ({[ 1 := true; 2 := true ]} : Assignments) !! variable l
       = Some (sign l).
Proof.
  apply (unit_propagate_decides id elements
           id_iter_perm elements_iter_perm implied ∅).
  - vm_compute. reflexivity.
  - apply list_elem_of_here.
Defined.

Lemma unit_propagate_assigns_units_witness :
  ∃ formula' assignments',
    unit_propagate id elements implied ∅ = Done (formula', assignments') ∧
    is_Some (assignments' !! variable x1).
Proof.
  eexists _, _. split; [vm_compute; reflexivity|].
  eapply (unit_propagate_assigns_units id elements
            id_iter_perm elements_iter_perm implied ∅ _ _
            (AxiomClause {[ x1 ]}) x1).
  - vm_compute. reflexivity.
  - apply list_elem_of_further, list_elem_of_here.
  - reflexivity.
Defined.

Lemma unit_propagate_tautology_free_witness :
  ∃ formula' assignments',
    unit_propagate id elements refuted ∅ = Done (formula', assignments') ∧
    ∀ c, c ∈ formula' → tautology_free c.
Proof.
  eexists _, _. split; [vm_compute; reflexivity|].
  eapply (unit_propagate_tautology_free id elements
            id_iter_perm elements_iter_perm refuted ∅).
  - vm_compute. reflexivity.
  - unfold refuted.
    for_each_clause ltac:(apply tautology_free_check; vm_compute; reflexivity).
Defined.

Lemma select_variable_exact_witness : var_in four_clauses 2.
Proof.
  apply (proj1 (select_variable_exact id elements
                  id_iter_perm elements_iter_perm four_clauses)).
  vm_compute. reflexivity.
Defined.

Lemma dpll_returns_witness :
  ∃ r, dpll id elements 3 four_clauses = Done r ∧
       ∀ clause, r = UNSATResult clause → literals clause = ∅.
Proof.
  apply (dpll_returns id elements id_iter_perm elements_iter_perm).
  vm_compute. lia.
Defined.

Lemma dpll_sat_domain_witness : var_in [ AxiomClause {[ x1; x2 ]} ] 2.
Proof.
  apply (dpll_sat_domain id elements id_iter_perm elements_iter_perm 3
           [ AxiomClause {[ x1; x2 ]} ] {[ 2 := true ]}).
  - vm_compute. reflexivity.
  - exists true. vm_compute. reflexivity.
Defined.

Lemma dpll_unsat_proof_witness :
  ∃ P, dpll id elements 3 four_clauses = Done (UNSATResult P) ∧
       unit_resolution P.
Proof.
  eexists. split; [vm_compute; reflexivity|].
  eapply (dpll_unsat_proof id elements
            id_iter_perm elements_iter_perm 3 four_clauses).
  - unfold four_clauses. for_each_clause ltac:(reflexivity).
  - vm_compute. reflexivity.
Defined.

Lemma dpll_unsat_refutes_witness :
  ∃ P, dpll id elements 1 refuted = Done (UNSATResult P) ∧
       ∀ A, ¬ satisfies A refuted.
Proof.
  eexists. split; [vm_compute; reflexivity|].
  refine (proj2 (dpll_unsat_refutes id elements
                   id_iter_perm elements_iter_perm 1 refuted _ _ _) _).
  - unfold refuted. for_each_clause ltac:(reflexivity).
  - vm_compute. reflexivity.
  - vm_compute. reflexivity.
Defined.

Lemma dpll_unsat_complete_witness :
  ∃ P, dpll id elements 2 [ AxiomClause {[ x1 ]}; AxiomClause {[ neg x1 ]} ]
       = Done (UNSATResult P) ∧
       literals P = ∅.
Proof.
  apply (dpll_unsat_complete id elements id_iter_perm elements_iter_perm).
  - vm_compute. lia.
  - intros A Hsat.
    destruct (Hsat (AxiomClause {[ x1 ]})) as (l & Hl & Hh);
      [apply list_elem_of_here|].
    destruct (Hsat (AxiomClause {[ neg x1 ]})) as (l' & Hl' & Hh');
      [apply list_elem_of_further, list_elem_of_here|].
    simpl in Hl, Hl'. apply elem_of_singleton in Hl as ->.
    apply elem_of_singleton in Hl' as ->.
    unfold holds in Hh, Hh'. simpl in Hh, Hh'. congruence.
Defined.

Lemma remove_assumption_unrelated_witness :
  literals (remove_assumption
              (resolve (AxiomClause {[ x1 ]}) (AxiomClause {[ neg x1 ]}))
              (resolve (AxiomClause {[ x1; x2 ]}) (AxiomClause {[ neg x1 ]})))
  = literals (resolve (AxiomClause {[ x1; x2 ]}) (AxiomClause {[ neg x1 ]})) ∧
  re_resolves
    (remove_assumption
       (resolve (AxiomClause {[ x1 ]}) (AxiomClause {[ neg x1 ]}))
       (resolve (AxiomClause {[ x1; x2 ]}) (AxiomClause {[ neg x1 ]}))).
Proof.
  apply remove_assumption_unrelated.
  - simpl. split; [reflexivity | done].
  - vm_compute. reflexivity.
Defined.
